(** * Inverted index, persistent store and query engines of [collection.py]

    A shallow embedding of [src/src/collection.py]: the class [InvertedIndex]
    with [add_document], and the class [Collection] with [flush_to_mongo], the
    store readers, [read_document], [processquery_boolean] and
    [processquery_vector].

    Conventions of the embedding.
    - Python [dict]s are insertion-ordered association lists ([dict_get],
      [dict_set]): the order of [items()] decides the order of the flushed
      records and of the vector result.
    - Python [int]s are [Z].  Python [float]s are idealised as the real
      numbers [R]: [math.log] is [ln], [math.sqrt] is [sqrt], rounding is not
      modelled.
    - Methods that mutate [self] or may raise are computations of the monad
      [M St A := St -> St * result A]; the state reached when an exception is
      raised is kept, as the mutations of a Python object are.
    - The operations of the store always return: the limits of its
      encoding (8-byte integers) and its failures are not modelled.
    - The collaborators whose modules are not part of the sources
      ([document.py], [boolean_expression_parse.py]) are variables of the
      section [Engine]. *)

From Stdlib Require Import List String ZArith Bool Lia Permutation Sorted.
From Stdlib Require Import Reals Lra.
Import ListNotations.

Local Open Scope string_scope.
Local Open Scope list_scope.
Local Open Scope Z_scope.

(** ** Exceptions and the state-and-exception monad *)

Inductive exn : Type :=
| UnknownTerm (term : string)        (* get_documents_for_term *)
| UnknownDocument (doc : string)     (* get_document_L_d *)
| ZeroDivisionError                  (* int / int and float / float *)
| ValueError                         (* math.log outside its domain *)
| SyntaxError.                       (* raised by the boolean parser *)

Inductive result (A : Type) : Type :=
| Ok (a : A)
| Raise (e : exn).
Arguments Ok {A} a.
Arguments Raise {A} e.

Definition M (St A : Type) : Type := St -> St * result A.

Definition ret {St A} (a : A) : M St A := fun s => (s, Ok a).

Definition raise {St A} (e : exn) : M St A := fun s => (s, Raise e).

Definition bind {St A B} (m : M St A) (k : A -> M St B) : M St B :=
  fun s =>
    match m s with
    | (s', Ok a) => k a s'
    | (s', Raise e) => (s', Raise e)
    end.

Definition get {St} : M St St := fun s => (s, Ok s).

Definition modify {St} (f : St -> St) : M St unit := fun s => (f s, Ok tt).

Declare Scope monad_scope.
Delimit Scope monad_scope with monad.
Notation "x <- m ;; k" := (bind m (fun x => k))
  (at level 61, m at next level, right associativity) : monad_scope.
Notation "m ;;; k" := (bind m (fun _ => k))
  (at level 61, right associativity) : monad_scope.
Local Open Scope monad_scope.

(** [for x in l: acc = body(acc, x)], stopping at the first exception. *)
Fixpoint for_each {St X Acc} (body : Acc -> X -> M St Acc) (l : list X)
  (acc : Acc) : M St Acc :=
  match l with
  | [] => ret acc
  | x :: l' => acc' <- body acc x ;; for_each body l' acc'
  end.

(** ** Python dictionaries as insertion-ordered association lists *)

Section Dict.
Context {K V : Type} (eqb : K -> K -> bool).

Fixpoint dict_get (k : K) (m : list (K * V)) : option V :=
  match m with
  | [] => None
  | (k', v) :: m' => if eqb k' k then Some v else dict_get k m'
  end.

(** [m[k] = v]: an existing key keeps its position, a new key goes last. *)
Fixpoint dict_set (k : K) (v : V) (m : list (K * V)) : list (K * V) :=
  match m with
  | [] => [(k, v)]
  | (k', v') :: m' =>
      if eqb k' k then (k', v) :: m' else (k', v') :: dict_set k v m'
  end.

(** [k in m] *)
Definition dict_contains (k : K) (m : list (K * V)) : bool :=
  match dict_get k m with Some _ => true | None => false end.

Definition dict_keys (m : list (K * V)) : list K := map fst m.
End Dict.

(** Truth value of a container: [if m:] holds when [m] is not empty. *)
Definition truthy {A} (l : list A) : bool :=
  match l with [] => false | _ :: _ => true end.

(** ** Data model *)

Definition Term : Type := string.

(** Modelled from the spec: [document.py] is not part of the sources.  A
    document is "identified by an opaque, globally unique location string"
    and two documents are the same entity iff their locations are equal; the
    only attribute [collection.py] reads is [location]. *)
Record Document : Type := mkDocument { location : string }.

Definition Document_eqb (d1 d2 : Document) : bool :=
  String.eqb (location d1) (location d2).

(** [class InvertedIndex(defaultdict)] with default factory [dict]:
    term -> (document -> count). *)
Definition InvertedIndex : Type := list (Term * list (Document * Z)).

(** The two MongoDB collections named by [mongo_collections]:
    ['invertedIndex'] holds records [{'term': t, 'docs': [{'doc', 'count'}]}],
    ['documents'] holds records [{'doc': location, 'L_d': norm}]. *)
Record MongoDb : Type := mkMongoDb {
  coll_invertedIndex : list (Term * list (string * Z));
  coll_documents : list (string * R)
}.

Record Collection : Type := mkCollection {
  index : InvertedIndex;               (* self.index *)
  documents : list (Document * R);     (* self.documents *)
  mongo_db : MongoDb                   (* self.mongo_db *)
}.

(** [Collection(mdb, mcolls)] over a store [db]. *)
Definition Collection_init (db : MongoDb) : Collection :=
  mkCollection [] [] db.

Definition empty_db : MongoDb := mkMongoDb [] [].

(** ** The MongoDB operations used by the code *)

(** [coll.update({'term': term}, {"$push": {"docs": {"$each": mdocs}}},
    upsert=True)]: the first record of the term gets [mdocs] appended to its
    [docs]; when there is none, a record is inserted for it. *)
Fixpoint update_push_upsert (term : Term) (mdocs : list (string * Z))
  (coll : list (Term * list (string * Z))) : list (Term * list (string * Z)) :=
  match coll with
  | [] => [(term, mdocs)]
  | (t, ds) :: coll' =>
      if String.eqb t term then (t, ds ++ mdocs) :: coll'
      else (t, ds) :: update_push_upsert term mdocs coll'
  end.

(** [coll.insert_many(mdocs)] *)
Definition insert_many {A} (mdocs : list A) (coll : list A) : list A :=
  coll ++ mdocs.

(** [coll.count()] *)
Definition count {A} (coll : list A) : Z := Z.of_nat (List.length coll).

(** [coll.find_one({key: k})]: the first record whose key is [k]. *)
Definition find_one {V} (k : string) (coll : list (string * V))
  : option (string * V) :=
  find (fun r => String.eqb (fst r) k) coll.

(** [coll.find({'doc': {"$nin": excluded}})] *)
Definition find_nin {V} (excluded : list string) (coll : list (string * V))
  : list (string * V) :=
  filter (fun r => negb (existsb (String.eqb (fst r)) excluded)) coll.

(** [set(l)] on strings: the elements of [l] without repetition. *)
Definition set_of (l : list string) : list string := nodup string_dec l.

(** ** Floating-point primitives, on the reals *)

(** [math.log(x)]: a [ValueError] ("math domain error") when [x <= 0]. *)
Definition math_log {St} (x : R) : M St R :=
  if Rle_dec x 0%R then raise ValueError else ret (ln x).

(** [x / y] on numbers: [ZeroDivisionError] when [y] is zero. *)
Definition truediv {St} (x y : R) : M St R :=
  if Req_dec_T y 0%R then raise ZeroDivisionError else ret (x / y)%R.

(** ** The boolean evaluator and [heapq.nlargest] *)

(** Elements of the sets the boolean evaluator handles: locations ([str]),
    read from the store, and document objects, the keys of
    [self.documents]. *)
Inductive pyobj : Type :=
| PyStr (s : string)
| PyDoc (d : Document).

(** Modelled from the spec: [document.py] is not part of the sources.
    Documents are equal iff their locations are; a document object and a
    [str] are different objects. *)
Definition pyobj_eqb (a b : pyobj) : bool :=
  match a, b with
  | PyStr s1, PyStr s2 => String.eqb s1 s2
  | PyDoc d1, PyDoc d2 => Document_eqb d1 d2
  | _, _ => false
  end.

Definition set_mem (x : pyobj) (s : list pyobj) : bool :=
  existsb (pyobj_eqb x) s.

Definition set_inter (a b : list pyobj) : list pyobj :=
  filter (fun x => set_mem x b) a.

Definition set_union (a b : list pyobj) : list pyobj :=
  a ++ filter (fun x => negb (set_mem x a)) b.

(** [a - b] *)
Definition set_diff (a b : list pyobj) : list pyobj :=
  filter (fun x => negb (set_mem x b)) a.

(** Modelled from the spec: [boolean_expression_parse.py] is not part of the
    sources.  The evaluator parses AND/OR/NOT with parentheses into an
    expression tree and evaluates it by set algebra (AND = intersection,
    OR = union, NOT = the complement primitive), reading the index only
    through the two primitives it is constructed with. *)
Inductive bexpr : Type :=
| BTerm (t : Term)
| BAnd (a b : bexpr)
| BOr (a b : bexpr)
| BNot (a : bexpr).

Fixpoint eval_bexpr {St} (term_documents : Term -> M St (list pyobj))
  (rest_documents : list pyobj -> M St (list pyobj)) (e : bexpr)
  : M St (list pyobj) :=
  match e with
  | BTerm t => term_documents t
  | BAnd a b =>
      x <- eval_bexpr term_documents rest_documents a ;;
      y <- eval_bexpr term_documents rest_documents b ;;
      ret (set_inter x y)
  | BOr a b =>
      x <- eval_bexpr term_documents rest_documents a ;;
      y <- eval_bexpr term_documents rest_documents b ;;
      ret (set_union x y)
  | BNot a =>
      x <- eval_bexpr term_documents rest_documents a ;;
      rest_documents x
  end.

(** [heapq.nlargest(n, iterable, key=operator.itemgetter(1))], which the
    library documents as [sorted(iterable, key=key, reverse=True)[:n]]: a
    stable sort by decreasing score, cut after [n] elements. *)
Fixpoint insert_desc {A} (x : A * R) (l : list (A * R)) : list (A * R) :=
  match l with
  | [] => [x]
  | y :: l' =>
      if Rle_dec (snd y) (snd x) then x :: y :: l'
      else y :: insert_desc x l'
  end.

Definition sorted_desc {A} (l : list (A * R)) : list (A * R) :=
  fold_right insert_desc [] l.

Definition nlargest {A} (n : Z) (l : list (A * R)) : list (A * R) :=
  firstn (Z.to_nat n) (sorted_desc l).

Section Engine.

(** [d.tokenize()] of [document.py]: the term counts of a document, as
    the items of a Python dict. *)
Variable tokenize : Document -> list (Term * Z).

(** [textpreprocess(q)] of [document.py]: the tokens of a raw string. *)
Variable textpreprocess : string -> list Term.

(** *** [InvertedIndex.add_document] *)

(** [self[term][d] = count], with the default factory [dict] for [self[term]]. *)
Definition index_set (term : Term) (d : Document) (cnt : Z)
  (self : InvertedIndex) : InvertedIndex :=
  let docs := match dict_get String.eqb term self with
              | Some docs => docs
              | None => []
              end in
  dict_set String.eqb term (dict_set Document_eqb d cnt docs) self.

Definition add_document_step (d : Document) (l_d : R) (item : Term * Z)
  : M InvertedIndex R :=
  let '(term, cnt) := item in
  modify (index_set term d cnt) ;;;
  if cnt =? 1 then ret (l_d + 1)%R
  else lg <- math_log (IZR cnt) ;; ret (l_d + (1 + lg) ^ 2)%R.

Definition add_document (d : Document) : M InvertedIndex R :=
  l_d <- for_each (add_document_step d) (tokenize d) 0%R ;;
  ret (sqrt l_d).

(** *** [Collection]: ingestion and flush *)

(** A method of [self.index] run from a method of the collection. *)
Definition on_index {A} (m : M InvertedIndex A) : M Collection A :=
  fun self =>
    let (idx, r) := m (index self) in
    (mkCollection idx (documents self) (mongo_db self), r).

Definition set_documents (f : list (Document * R) -> list (Document * R))
  (self : Collection) : Collection :=
  mkCollection (index self) (f (documents self)) (mongo_db self).

Definition set_index (f : InvertedIndex -> InvertedIndex)
  (self : Collection) : Collection :=
  mkCollection (f (index self)) (documents self) (mongo_db self).

Definition set_mongo_db (f : MongoDb -> MongoDb) (self : Collection)
  : Collection :=
  mkCollection (index self) (documents self) (f (mongo_db self)).

Definition read_document (d : Document) : M Collection unit :=
  self <- get ;;
  if negb (dict_contains Document_eqb d (documents self)) then
    l_d <- on_index (add_document d) ;;
    modify (set_documents (dict_set Document_eqb d l_d))
  else ret tt.

(** [[{'doc': doc.location, 'count': count} for doc, count in docs.items()]] *)
Definition mongo_docs {V} (docs : list (Document * V)) : list (string * V) :=
  map (fun e => (location (fst e), snd e)) docs.

Definition push_term (item : Term * list (Document * Z)) (db : MongoDb)
  : MongoDb :=
  mkMongoDb
    (update_push_upsert (fst item) (mongo_docs (snd item))
       (coll_invertedIndex db))
    (coll_documents db).

Definition insert_norms (mdocs : list (string * R)) (db : MongoDb)
  : MongoDb :=
  mkMongoDb (coll_invertedIndex db) (insert_many mdocs (coll_documents db)).

Definition flush_to_mongo : M Collection unit :=
  self <- get ;;
  (if truthy (index self) && truthy (documents self) then
     for_each (fun _ item => modify (set_mongo_db (push_term item)))
       (index self) tt ;;;
     modify (set_mongo_db (insert_norms (mongo_docs (documents self))))
   else ret tt) ;;;
  modify (set_index (fun _ => [])) ;;;
  modify (set_documents (fun _ => [])).

(** *** [Collection]: the store readers *)

Definition get_documents_count : M Collection Z :=
  self <- get ;; ret (count (coll_invertedIndex (mongo_db self))).

Definition get_index_count : M Collection Z :=
  self <- get ;; ret (count (coll_documents (mongo_db self))).

Definition get_documents_for_term (term : Term)
  : M Collection (list (string * Z)) :=
  self <- get ;;
  match find_one term (coll_invertedIndex (mongo_db self)) with
  | Some ans => ret (snd ans)
  | None => raise (UnknownTerm term)
  end.

Definition get_only_documents_for_term (term : Term)
  : M Collection (list string) :=
  self <- get ;;
  match find_one term (coll_invertedIndex (mongo_db self)) with
  | Some ans => ret (set_of (map fst (snd ans)))
  | None => ret []
  end.

Definition get_documents_not_in (other_doc_set : list string)
  : M Collection (list string) :=
  self <- get ;;
  ret (set_of (map fst (find_nin other_doc_set
                          (coll_documents (mongo_db self))))).

Definition get_document_L_d (doc : string) : M Collection R :=
  self <- get ;;
  match find_one doc (coll_documents (mongo_db self)) with
  | Some ans => ret (snd ans)
  | None => raise (UnknownDocument doc)
  end.

(** *** [Collection.processquery_boolean] *)

(** The parser of the surface grammar of [BooleanExpressionParser]. *)
Variable parse_query : string -> option bexpr.

Definition term_documents (term : Term) : M Collection (list pyobj) :=
  docs <- get_only_documents_for_term term ;; ret (map PyStr docs).

Definition rest_documents (documents_set : list pyobj)
  : M Collection (list pyobj) :=
  self <- get ;;
  ret (set_diff (map PyDoc (dict_keys (documents self))) documents_set).

Definition eval_query (newq : string) : M Collection (list pyobj) :=
  match parse_query newq with
  | Some e => eval_bexpr term_documents rest_documents e
  | None => raise SyntaxError
  end.

Definition processquery_boolean (q : string) : M Collection (list pyobj) :=
  let newq := String.concat " " (textpreprocess q) in
  eval_query newq.

(** *** [Collection.processquery_vector] *)

(** [S[k]] on [S = defaultdict(float)] *)
Definition score_of (k : string) (S : list (string * R)) : R :=
  match dict_get String.eqb k S with Some v => v | None => 0%R end.

(** [idf_t = math.log(1 + self.get_documents_count() / self.get_index_count())] *)
Definition idf : M Collection R :=
  dc <- get_documents_count ;;
  ic <- get_index_count ;;
  x <- truediv (IZR dc) (IZR ic) ;;
  math_log (1 + x)%R.

(** The body of [for term in q_tokens]. *)
Definition score_term (S : list (string * R)) (term : Term)
  : M Collection (list (string * R)) :=
  idf_t <- idf ;;
  entries <- get_documents_for_term term ;;
  for_each
    (fun S doc_entry =>
       ret (dict_set String.eqb (fst doc_entry)
              (score_of (fst doc_entry) S + IZR (snd doc_entry) * idf_t)%R S))
    entries S.

(** The body of [for d in S.keys()]. *)
Definition normalize_doc (S : list (string * R)) (d : string)
  : M Collection (list (string * R)) :=
  l_d <- get_document_L_d d ;;
  v <- truediv (score_of d S) l_d ;;
  ret (dict_set String.eqb d v S).

(** The scores [S] after the two loops. *)
Definition vector_scores (q_tokens : list Term)
  : M Collection (list (string * R)) :=
  S <- for_each score_term q_tokens [] ;;
  for_each normalize_doc (dict_keys S) S.

(** The last two lines: the similarity floor and the cut. *)
Definition select_passed (above : R) (top : Z) (S : list (string * R))
  : list (string * R) :=
  let S_passed :=
    if Rlt_dec 0 above
    then filter (fun kv => if Rle_dec above (snd kv) then true else false) S
    else S in
  if top <? 0 then S_passed else nlargest top S_passed.

Definition processquery_vector (q : string) (above : R) (top : Z)
  : M Collection (list (string * R)) :=
  let q_tokens := textpreprocess q in
  S <- vector_scores q_tokens ;;
  ret (select_passed above top S).

End Engine.

(** ** The spec's weighting formula *)

(** The contribution of a term of count [c] to the squared norm. *)
Definition weight (c : Z) : R :=
  if c =? 1 then 1%R else ((1 + ln (IZR c)) ^ 2)%R.

(** The sum of the contributions of the terms of a document. *)
Definition weight_sum (items : list (Term * Z)) : R :=
  fold_right (fun item acc => (weight (snd item) + acc)%R) 0%R items.

(** The index after the loop of [add_document]. *)
Definition index_add (d : Document) (items : list (Term * Z))
  (self : InvertedIndex) : InvertedIndex :=
  fold_left (fun idx item => index_set (fst item) d (snd item) idx) items self.

(** The store after the writes of [flush_to_mongo]. *)
Definition flushed_db (self : Collection) : MongoDb :=
  insert_norms (mongo_docs (documents self))
    (fold_left (fun db item => push_term item db) (index self)
       (mongo_db self)).

(** A posting that [get_documents_for_term] returns from the store. *)
Definition stored_posting (db : MongoDb) (term : Term) (doc : string)
  (cnt : Z) : Prop :=
  exists ans, find_one term (coll_invertedIndex db) = Some ans
              /\ In (doc, cnt) (snd ans).

(** A norm record of the store. *)
Definition stored_norm (db : MongoDb) (doc : string) (l_d : R) : Prop :=
  In (doc, l_d) (coll_documents db).

(** ** A small corpus *)

Definition docA : Document := mkDocument "docA".
Definition docB : Document := mkDocument "docB".
Definition docC : Document := mkDocument "docC".

(** docA is "cat dog cat", docB is "dog", docC is "cat cat cat", any other
    document has no token. *)
Definition tokenize_ex (d : Document) : list (Term * Z) :=
  if String.eqb (location d) "docA" then [("cat", 2); ("dog", 1)]
  else if String.eqb (location d) "docB" then [("dog", 1)]
  else if String.eqb (location d) "docC" then [("cat", 3)]
  else [].

(** Queries are kept whole; "NOT cat" parses to a negation, any other query
    to a term. *)
Definition textpreprocess_ex (q : string) : list Term := [q].

Definition parse_query_ex (q : string) : option bexpr :=
  if String.eqb q "NOT cat" then Some (BNot (BTerm "cat")) else Some (BTerm q).

(** The state reached from [s] by [m]. *)
Definition exec {St A} (m : M St A) (s : St) : St := fst (m s).

(** The norms of docA and docB. *)
Definition norm_A : R := sqrt (weight_sum [("cat", 2); ("dog", 1)]).
Definition norm_B : R := sqrt (weight_sum [("dog", 1)]).

(** docA and docB ingested, not flushed. *)
Definition coll_AB : Collection :=
  exec (read_document tokenize_ex docB)
    (exec (read_document tokenize_ex docA) (Collection_init empty_db)).

(** docA and docB ingested and flushed. *)
Definition coll_AB_flushed : Collection := exec flush_to_mongo coll_AB.

(** docA alone, ingested and flushed: one document, two distinct terms. *)
Definition coll_A_flushed : Collection :=
  exec flush_to_mongo
    (exec (read_document tokenize_ex docA) (Collection_init empty_db)).


(** The scores after the inner loop of [processquery_vector] on the
    postings [entries] of one term. *)
Definition add_scores (idf_t : R) (entries : list (string * Z))
  (S : list (string * R)) : list (string * R) :=
  fold_left
    (fun S doc_entry =>
       dict_set String.eqb (fst doc_entry)
         (score_of (fst doc_entry) S + IZR (snd doc_entry) * idf_t)%R S)
    entries S.

(** A term with a record in the ['invertedIndex'] collection. *)
Definition known_term (self : Collection) (term : Term) : Prop :=
  find_one term (coll_invertedIndex (mongo_db self)) <> None.

(** The idf weight of a store with a non-empty ['documents'] collection. *)
Definition idf_value (self : Collection) : R :=
  ln (1 + IZR (count (coll_invertedIndex (mongo_db self)))
          / IZR (count (coll_documents (mongo_db self)))).

(** The norm the store answers for a location, 0 when it has none. *)
Definition norm_of (self : Collection) (doc : string) : R :=
  match find_one doc (coll_documents (mongo_db self)) with
  | Some ans => snd ans
  | None => 0%R
  end.

(** The scores after the normalisation loop over [keys]. *)
Definition normalize_all (self : Collection) (keys : list string)
  (S : list (string * R)) : list (string * R) :=
  fold_left
    (fun S d => dict_set String.eqb d (score_of d S / norm_of self d)%R S)
    keys S.

(** [x] is ranked before [y]: its score is not smaller. *)
Definition score_ge {A} (x y : A * R) : Prop := (snd y <= snd x)%R.

(** The scores of the query "dog" on the flushed docA and docB: after
    the first loop, and normalised. *)
Definition scores_dog : list (string * R) :=
  add_scores (idf_value coll_AB_flushed) [("docA", 1); ("docB", 1)] [].

Definition scores_dog_normalised : list (string * R) :=
  normalize_all coll_AB_flushed (dict_keys scores_dog) scores_dog.

(** ** Collections built by ingestion *)

(** A tokenization whose counts are all at least 1. *)
Definition counts_ok (items : list (Term * Z)) : Prop :=
  forall t c, In (t, c) items -> 1 <= c.

(** A document with a posting in the in-memory index. *)
Definition posting_doc (idx : InvertedIndex) (d : Document) : Prop :=
  exists term docs, In (term, docs) idx /\ In d (dict_keys docs).

(** A location with a posting in the ['invertedIndex'] collection. *)
Definition stored_doc (coll : list (Term * list (string * Z)))
  (doc : string) : Prop :=
  exists term ans, In (term, ans) coll /\ In doc (map fst ans).

(** The states of a collection over an empty store that is fed by
    [read_document], on documents whose counts are at least 1, and by
    [flush_to_mongo].  Each read brings its own tokenization: the content
    behind a location may have changed since the location was last read. *)
Inductive built : Collection -> Prop :=
| built_init : built (Collection_init empty_db)
| built_read tokenize d self :
    built self -> counts_ok (tokenize d) ->
    built (exec (read_document tokenize d) self)
| built_flush self :
    built self -> built (exec flush_to_mongo self).

(** The states of [built] in which a location is tokenized the same way
    each time it is read: the one function [tokenize] gives the
    tokenization of every read. *)
Inductive built_stable (tokenize : Document -> list (Term * Z))
  : Collection -> Prop :=
| stable_init : built_stable tokenize (Collection_init empty_db)
| stable_read d self :
    built_stable tokenize self -> counts_ok (tokenize d) ->
    built_stable tokenize (exec (read_document tokenize d) self)
| stable_flush self :
    built_stable tokenize self -> built_stable tokenize (exec flush_to_mongo self).

(** A norm computed by [add_document] on counts that are at least 1. *)
Definition good_norm (tokenize : Document -> list (Term * Z))
  (d : Document) (l_d : R) : Prop :=
  counts_ok (tokenize d) /\ l_d = sqrt (weight_sum (tokenize d)).

(** The invariant of [built_stable]: norms are those of [add_document], and a
    document with a posting has a token and a norm, in memory and in the
    store. *)
Record consistent (tokenize : Document -> list (Term * Z))
  (self : Collection) : Prop := mkConsistent {
  mem_norms : forall d l_d,
    In (d, l_d) (documents self) -> good_norm tokenize d l_d;
  mem_postings : forall d,
    posting_doc (index self) d ->
    tokenize d <> [] /\ In d (dict_keys (documents self));
  store_norms : forall doc l_d,
    In (doc, l_d) (coll_documents (mongo_db self)) ->
    good_norm tokenize (mkDocument doc) l_d;
  store_postings : forall doc,
    stored_doc (coll_invertedIndex (mongo_db self)) doc ->
    tokenize (mkDocument doc) <> []
    /\ In doc (map fst (coll_documents (mongo_db self)))
}.

(** ** Reading the store back *)

(** The postings of the record of a term, none when it has no record. *)
Definition stored_docs (db : MongoDb) (term : Term) : list (string * Z) :=
  match find_one term (coll_invertedIndex db) with
  | Some ans => snd ans
  | None => []
  end.

(** The postings that the loop of [flush_to_mongo] pushes for a term. *)
Definition pushed_docs (term : Term) (items : InvertedIndex)
  : list (string * Z) :=
  flat_map
    (fun item => if String.eqb (fst item) term then mongo_docs (snd item)
                 else [])
    items.

(** The terms of the in-memory index that have no record in the store. *)
Definition new_terms (self : Collection) : list Term :=
  filter
    (fun t => match find_one t (coll_invertedIndex (mongo_db self)) with
              | Some _ => false
              | None => true
              end)
    (dict_keys (index self)).

(** [self[term][d]] when both keys are present: the count posted for a
    document under a term. *)
Definition index_get (self : InvertedIndex) (term : Term) (d : Document)
  : option Z :=
  match dict_get String.eqb term self with
  | Some docs => dict_get Document_eqb d docs
  | None => None
  end.

(** A tokenizer that reports a count of 0: every document is cat once, dog
    never and emu twice. *)
Definition tokenize_bad (d : Document) : list (Term * Z) :=
  [("cat", 1); ("dog", 0); ("emu", 2)].

(** ** The scores of a vector query, in closed form *)

(** The occurrences that a list of postings gives a location. *)
Definition doc_count (doc : string) (entries : list (string * Z)) : Z :=
  fold_right
    (fun e acc => if String.eqb (fst e) doc then snd e + acc else acc)
    0 entries.

(** The occurrences in a document of the tokens of a query, each token
    counted as often as the query repeats it. *)
Definition query_count (self : Collection) (q_tokens : list Term)
  (doc : string) : Z :=
  fold_right
    (fun t acc => doc_count doc (stored_docs (mongo_db self) t) + acc)
    0 q_tokens.

(** The scores after the first loop of [processquery_vector] when no term
    raises. *)
Definition score_all (self : Collection) (q_tokens : list Term)
  (S : list (string * R)) : list (string * R) :=
  fold_left
    (fun S t => add_scores (idf_value self) (stored_docs (mongo_db self) t) S)
    q_tokens S.

(** More of what [built_stable] keeps: the posting table is empty when the norm
    table is, the terms of the documents of the norm table are keys of the
    posting table, and the store has a norm record when it has a term
    record. *)
Record ingested (tokenize : Document -> list (Term * Z))
  (self : Collection) : Prop := mkIngested {
  ing_tables : documents self = [] -> index self = [];
  ing_terms : forall d t,
    In d (dict_keys (documents self)) -> In t (map fst (tokenize d)) ->
    In t (dict_keys (index self));
  ing_store :
    coll_invertedIndex (mongo_db self) <> [] ->
    coll_documents (mongo_db self) <> []
}.

(** A store whose posting of docA has no norm record. *)
Definition coll_orphan : Collection :=
  mkCollection [] []
    (mkMongoDb [("cat", [("docA", 1)])] [("docB", 1%R)]).

(** [x] has the score [v]. *)
Definition has_score {A} (v : R) (x : A * R) : bool :=
  if Req_dec_T (snd x) v then true else false.

(** ** The script of [main.py] *)

(** The body of [main.py] over the collection it creates: the documents
    found under the directory and the web document are read in turn, the
    collection is flushed, and the query is evaluated with [above=0].  The
    walk of the directory and the download are not modelled: [docs] is the
    list of the documents in the order they are read. *)
Definition main_script (tokenize : Document -> list (Term * Z))
  (textpreprocess : string -> list Term) (docs : list Document) (q : string)
  : M Collection (list (string * R)) :=
  for_each (fun _ d => read_document tokenize d) docs tt ;;;
  flush_to_mongo ;;;
  processquery_vector textpreprocess q 0 (-1).

(** The collection after the reads of [main_script]. *)
Definition read_all (tokenize : Document -> list (Term * Z))
  (docs : list Document) (self : Collection) : Collection :=
  fold_left (fun s d => exec (read_document tokenize d) s) docs self.

(** What [built] keeps whatever the tokenizations: a document with a
    posting in the in-memory index is in the norm table. *)
Definition tables_linked (self : Collection) : Prop :=
  forall d, posting_doc (index self) d -> In d (dict_keys (documents self)).

(** ** A location read again after its content changed *)




(** ** The monad: read-only computations *)

Definition readonly {St A} (m : M St A) : Prop := forall s, fst (m s) = s.

Lemma readonly_ret {St A} (a : A) : readonly (@ret St A a).
Proof. intro s. reflexivity. Qed.

Lemma readonly_raise {St A} (e : exn) : readonly (@raise St A e).
Proof. intro s. reflexivity. Qed.

Lemma readonly_get {St} : readonly (@get St).
Proof. intro s. reflexivity. Qed.

Lemma readonly_bind {St A B} (m : M St A) (k : A -> M St B) :
  readonly m -> (forall a, readonly (k a)) -> readonly (bind m k).
Proof.
  intros Hm Hk s. unfold bind.
  specialize (Hm s). destruct (m s) as [s' [a | e]]; simpl in Hm; subst s'.
  - apply Hk.
  - reflexivity.
Qed.

Lemma readonly_for_each {St X Acc} (body : Acc -> X -> M St Acc) l :
  (forall acc x, readonly (body acc x)) ->
  forall acc, readonly (for_each body l acc).
Proof.
  intros Hbody. induction l as [| x l IH]; intro acc; simpl.
  - apply readonly_ret.
  - apply readonly_bind; [apply Hbody | exact IH].
Qed.

Lemma readonly_math_log {St} x : readonly (@math_log St x).
Proof.
  unfold math_log. destruct (Rle_dec x 0); [apply readonly_raise | apply readonly_ret].
Qed.

Lemma readonly_truediv {St} x y : readonly (@truediv St x y).
Proof.
  unfold truediv.
  destruct (Req_dec_T y 0); [apply readonly_raise | apply readonly_ret].
Qed.

Create HintDb readonly.
#[local] Hint Resolve readonly_ret readonly_raise readonly_get
  readonly_math_log readonly_truediv : readonly.

(** A read-only computation is determined by its result. *)
Lemma readonly_run {St A} (m : M St A) s :
  readonly m -> m s = (s, snd (m s)).
Proof.
  intro H. specialize (H s). destruct (m s) as [s' r]. simpl in *. now subst.
Qed.

(** ** Dictionaries *)

Lemma dict_contains_set {K V} (eqb : K -> K -> bool) k (v : V) m :
  (forall x, eqb x x = true) ->
  dict_contains eqb k (dict_set eqb k v m) = true.
Proof.
  intro Hrefl. unfold dict_contains.
  induction m as [| [k' v'] m IH]; simpl.
  - now rewrite Hrefl.
  - destruct (eqb k' k) eqn:E; simpl; rewrite E; [reflexivity | exact IH].
Qed.

Lemma Document_eqb_refl d : Document_eqb d d = true.
Proof. apply String.eqb_refl. Qed.

Lemma Document_eqb_eq d1 d2 : Document_eqb d1 d2 = true <-> d1 = d2.
Proof.
  unfold Document_eqb. rewrite String.eqb_eq.
  destruct d1, d2; simpl; split; congruence.
Qed.

(** ** Ingestion: [add_document] and [read_document] *)

Section Ingestion.

Variable tokenize : Document -> list (Term * Z).

Lemma weight_ge_1 c : 1 <= c -> (1 <= weight c)%R.
Proof.
  intro Hc. unfold weight. destruct (c =? 1) eqn:E; [lra |].
  apply Z.eqb_neq in E.
  assert (Hln : (0 < ln (IZR c))%R).
  { rewrite <- ln_1. apply ln_increasing; [lra | apply IZR_lt; lia]. }
  nra.
Qed.

Lemma weight_sum_nonneg items :
  (forall t c, In (t, c) items -> 1 <= c) -> (0 <= weight_sum items)%R.
Proof.
  induction items as [| [t c] items IH]; intro H; simpl; [lra |].
  assert (1 <= weight c)%R by (apply weight_ge_1, (H t); now left).
  assert (0 <= weight_sum items)%R by (apply IH; intros; eapply H; right; eauto).
  lra.
Qed.

Lemma weight_sum_ge_1 items :
  items <> [] -> (forall t c, In (t, c) items -> 1 <= c) ->
  (1 <= weight_sum items)%R.
Proof.
  destruct items as [| [t c] items]; [congruence |]. intros _ H. simpl.
  assert (1 <= weight c)%R by (apply weight_ge_1, (H t); now left).
  assert (0 <= weight_sum items)%R
    by (apply weight_sum_nonneg; intros; eapply H; right; eauto).
  lra.
Qed.

(** One turn of the loop of [add_document] on a count that is at least 1. *)
Lemma add_document_step_ok d l_d t c self :
  1 <= c ->
  add_document_step d l_d (t, c) self =
  (index_set t d c self, Ok (l_d + weight c)%R).
Proof.
  intro Hc. unfold add_document_step, weight, bind, modify, math_log, ret.
  destruct (c =? 1); [reflexivity |].
  destruct (Rle_dec (IZR c) 0) as [Hle | _]; [| reflexivity].
  exfalso. apply (IZR_le 1 c) in Hc. lra.
Qed.

Lemma add_document_loop d items :
  (forall t c, In (t, c) items -> 1 <= c) ->
  forall l_d self,
    for_each (add_document_step d) items l_d self =
    (index_add d items self, Ok (l_d + weight_sum items)%R).
Proof.
  induction items as [| [t c] items IH]; intros H l_d self; cbn [for_each].
  - unfold ret. simpl. now rewrite Rplus_0_r.
  - unfold bind at 1.
    rewrite add_document_step_ok by (apply (H t); now left).
    rewrite IH by (intros; eapply H; right; eauto).
    simpl. do 2 f_equal. lra.
Qed.

Lemma add_document_ok d self :
  (forall t c, In (t, c) (tokenize d) -> 1 <= c) ->
  add_document tokenize d self =
  (index_add d (tokenize d) self, Ok (sqrt (weight_sum (tokenize d)))).
Proof.
  intro H. unfold add_document, bind. rewrite add_document_loop by exact H.
  unfold ret. now rewrite Rplus_0_l.
Qed.

Lemma weight_sum_ones items :
  (forall t c, In (t, c) items -> c = 1) ->
  weight_sum items = INR (List.length items).
Proof.
  induction items as [| [t c] items IH]; intro H; [reflexivity |].
  cbn [weight_sum fold_right List.length snd]. fold (weight_sum items).
  rewrite IH by (intros; eapply H; right; eauto).
  rewrite (H t c) by now left. rewrite S_INR. unfold weight. simpl. lra.
Qed.

(** C6: for a document whose term counts are all at least 1,
    [add_document] returns the square root of the sum, over the terms, of 1
    for a count of 1 and of [(1 + ln count)^2] otherwise.  When every token
    occurs once this is the square root of the number of distinct tokens,
    and for a single token of count [c > 1] it is [1 + ln c]. *)
Theorem add_document_returns_norm d self :
  (forall t c, In (t, c) (tokenize d) -> 1 <= c) ->
  snd (add_document tokenize d self) = Ok (sqrt (weight_sum (tokenize d)))
  /\ ((forall t c, In (t, c) (tokenize d) -> c = 1) ->
      snd (add_document tokenize d self) =
      Ok (sqrt (INR (List.length (tokenize d)))))
  /\ (forall t c, tokenize d = [(t, c)] -> 1 < c ->
      snd (add_document tokenize d self) = Ok (1 + ln (IZR c))%R).
Proof.
  intro H. rewrite add_document_ok by exact H. simpl. repeat split.
  - intro H1. now rewrite weight_sum_ones.
  - intros t c Htok Hc. rewrite Htok. simpl. unfold weight.
    replace (c =? 1) with false by (symmetry; apply Z.eqb_neq; lia).
    assert (Hln : (0 < ln (IZR c))%R).
    { rewrite <- ln_1. apply ln_increasing; [lra | apply IZR_lt; lia]. }
    rewrite Rplus_0_r. f_equal.
    replace ((1 + ln (IZR c)) ^ 2)%R with (Rsqr (1 + ln (IZR c)))
      by (unfold Rsqr; ring).
    apply sqrt_Rsqr. lra.
Qed.

(** [read_document] on a document that is in the norm table. *)
Lemma read_document_known_eq d self :
  dict_contains Document_eqb d (documents self) = true ->
  read_document tokenize d self = (self, Ok tt).
Proof.
  intro H. unfold read_document, bind, get. now rewrite H.
Qed.

(** C7: [read_document] on a document already in the norm table returns
    without raising and leaves the posting table, the norm table and the
    store as they were: nothing is counted twice and no norm is computed
    again. *)
Theorem read_document_known_noop d self :
  dict_contains Document_eqb d (documents self) = true ->
  snd (read_document tokenize d self) = Ok tt
  /\ index (exec (read_document tokenize d) self) = index self
  /\ documents (exec (read_document tokenize d) self) = documents self
  /\ mongo_db (exec (read_document tokenize d) self) = mongo_db self.
Proof.
  intro H. unfold exec. rewrite read_document_known_eq by exact H.
  repeat split.
Qed.

(** A document read with success is in the norm table. *)
Lemma read_document_records d self self' :
  read_document tokenize d self = (self', Ok tt) ->
  dict_contains Document_eqb d (documents self') = true.
Proof.
  unfold read_document, bind, get.
  destruct (dict_contains Document_eqb d (documents self)) eqn:E; simpl.
  - unfold ret. intro H. injection H as <-. exact E.
  - unfold on_index. destruct (add_document tokenize d (index self)) as [idx [l | e]].
    + unfold modify. intro H. injection H as <-. simpl.
      apply dict_contains_set, Document_eqb_refl.
    + discriminate.
Qed.

(** Reading a document twice is reading it once. *)
Lemma read_document_twice d self self' :
  read_document tokenize d self = (self', Ok tt) ->
  read_document tokenize d self' = (self', Ok tt).
Proof.
  intro H. apply read_document_records in H.
  unfold read_document, bind, get. now rewrite H.
Qed.

End Ingestion.

(** ** The flush *)

Lemma push_terms_loop items self :
  for_each (fun (_ : unit) item => modify (set_mongo_db (push_term item)))
    items tt self =
  (set_mongo_db (fun db => fold_left (fun db item => push_term item db) items db)
     self, Ok tt).
Proof.
  revert self. induction items as [| item items IH]; intro self; cbn [for_each].
  - destruct self; reflexivity.
  - unfold bind at 1, modify at 1. rewrite IH. destruct self; reflexivity.
Qed.

(** [flush_to_mongo] in one step: the store is written when both tables
    are non-empty, and the tables are cleared. *)
Lemma flush_to_mongo_eq self :
  flush_to_mongo self =
  (mkCollection [] []
     (if truthy (index self) && truthy (documents self)
      then flushed_db self else mongo_db self),
   Ok tt).
Proof.
  unfold flush_to_mongo, bind at 1, get.
  destruct (truthy (index self) && truthy (documents self)).
  - unfold bind at 1, bind at 1. rewrite push_terms_loop.
    unfold modify, bind, set_index, set_documents, set_mongo_db, flushed_db.
    reflexivity.
  - unfold bind, ret, modify, set_index, set_documents. reflexivity.
Qed.

Lemma find_one_push_same term mdocs coll :
  exists ans, find_one term (update_push_upsert term mdocs coll) = Some ans
              /\ incl mdocs (snd ans).
Proof.
  induction coll as [| [t ds] coll IH]; simpl.
  - rewrite String.eqb_refl. eexists; split; [reflexivity | apply incl_refl].
  - destruct (String.eqb t term) eqn:E; simpl; rewrite E.
    + eexists; split; [reflexivity | apply incl_appr, incl_refl].
    + exact IH.
Qed.

Lemma find_one_push_other t term mdocs coll ans :
  find_one t coll = Some ans ->
  exists ans', find_one t (update_push_upsert term mdocs coll) = Some ans'
               /\ incl (snd ans) (snd ans').
Proof.
  induction coll as [| [t0 ds] coll IH]; simpl; [discriminate |].
  destruct (String.eqb t0 t) eqn:Et.
  - intro H. injection H as <-.
    destruct (String.eqb t0 term) eqn:E; simpl; rewrite Et;
      eexists; (split; [reflexivity |]); simpl.
    + apply incl_appl, incl_refl.
    + apply incl_refl.
  - intro H. destruct (String.eqb t0 term) eqn:E; simpl; rewrite Et.
    + exists ans. split; [exact H | apply incl_refl].
    + apply IH, H.
Qed.

Lemma stored_posting_push item db term doc cnt :
  stored_posting db term doc cnt ->
  stored_posting (push_term item db) term doc cnt.
Proof.
  intros [ans [Hf Hin]]. unfold stored_posting, push_term. simpl.
  destruct (find_one_push_other term (fst item) (mongo_docs (snd item)) _ _ Hf)
    as [ans' [Hf' Hincl]].
  exists ans'. split; [exact Hf' | apply Hincl, Hin].
Qed.

Lemma stored_posting_push_terms items db term doc cnt :
  stored_posting db term doc cnt ->
  stored_posting (fold_left (fun db item => push_term item db) items db)
    term doc cnt.
Proof.
  revert db. induction items as [| item items IH]; intros db H; simpl.
  - exact H.
  - apply IH, stored_posting_push, H.
Qed.

Lemma in_mongo_docs {V} (d : Document) (v : V) docs :
  In (d, v) docs -> In (location d, v) (mongo_docs docs).
Proof.
  intro H. unfold mongo_docs.
  change (location d, v) with ((fun e : Document * V => (location (fst e), snd e)) (d, v)).
  now apply in_map.
Qed.

Lemma push_terms_stores items db term docs d cnt :
  In (term, docs) items -> In (d, cnt) docs ->
  stored_posting (fold_left (fun db item => push_term item db) items db)
    term (location d) cnt.
Proof.
  revert db. induction items as [| item items IH]; intros db Hin Hd; simpl.
  - contradiction.
  - destruct Hin as [-> | Hin].
    + apply stored_posting_push_terms. unfold stored_posting, push_term. simpl.
      destruct (find_one_push_same term (mongo_docs docs) (coll_invertedIndex db))
        as [ans [Hf Hincl]].
      exists ans. split; [exact Hf | apply Hincl, in_mongo_docs, Hd].
    + now apply IH.
Qed.

Lemma push_terms_documents items db :
  coll_documents (fold_left (fun db item => push_term item db) items db) =
  coll_documents db.
Proof.
  revert db. induction items as [| item items IH]; intro db; simpl.
  - reflexivity.
  - now rewrite IH.
Qed.

Lemma truthy_false {A} (l : list A) : truthy l = false <-> l = [].
Proof. destruct l; simpl; split; congruence. Qed.

Lemma truthy_true {A} (l : list A) : truthy l = true <-> l <> [].
Proof. destruct l; simpl; split; congruence. Qed.

(** What a flush of two non-empty tables keeps: the postings and the norms
    the store held before. *)
Lemma flush_to_mongo_keeps_store self :
  (forall term doc cnt,
      stored_posting (mongo_db self) term doc cnt ->
      stored_posting (mongo_db (exec flush_to_mongo self)) term doc cnt)
  /\ (forall doc l_d,
         stored_norm (mongo_db self) doc l_d ->
         stored_norm (mongo_db (exec flush_to_mongo self)) doc l_d).
Proof.
  unfold exec. rewrite flush_to_mongo_eq. simpl.
  destruct (truthy (index self) && truthy (documents self)); [| now split].
  split.
  - intros term doc cnt Hin. unfold flushed_db, insert_norms.
    unfold stored_posting. simpl. apply stored_posting_push_terms, Hin.
  - intros doc l_d Hin.
    unfold stored_norm, flushed_db, insert_norms, insert_many in *. simpl.
    rewrite push_terms_documents. apply in_or_app. now left.
Qed.


(** ** The small corpus, evaluated *)

(** [read_document] on a document that is not in the norm table. *)
Lemma read_document_fresh tokenize d self :
  dict_contains Document_eqb d (documents self) = false ->
  (forall t c, In (t, c) (tokenize d) -> 1 <= c) ->
  read_document tokenize d self =
  (mkCollection (index_add d (tokenize d) (index self))
     (dict_set Document_eqb d (sqrt (weight_sum (tokenize d))) (documents self))
     (mongo_db self),
   Ok tt).
Proof.
  intros Hnew Hc. unfold read_document, bind at 1, get. rewrite Hnew. simpl.
  unfold bind, on_index. rewrite add_document_ok by exact Hc.
  reflexivity.
Qed.

Ltac counts_ok :=
  let t := fresh "t" in let c := fresh "c" in let H := fresh "H" in
  intros t c H; simpl in H;
  repeat (destruct H as [H | H]; [injection H as <- <-; lia |]);
  contradiction.


Lemma coll_AB_eq :
  coll_AB =
  mkCollection
    [("cat", [(docA, 2)]); ("dog", [(docA, 1); (docB, 1)])]
    [(docA, norm_A); (docB, norm_B)]
    empty_db.
Proof.
  unfold coll_AB, exec.
  rewrite (read_document_fresh tokenize_ex docA) by (reflexivity || counts_ok).
  cbn [fst]. rewrite read_document_fresh by (reflexivity || counts_ok).
  reflexivity.
Qed.

Lemma coll_AB_flushed_eq :
  coll_AB_flushed =
  mkCollection [] []
    (mkMongoDb
       [("cat", [("docA", 2)]); ("dog", [("docA", 1); ("docB", 1)])]
       [("docA", norm_A); ("docB", norm_B)]).
Proof.
  unfold coll_AB_flushed, exec. rewrite flush_to_mongo_eq, coll_AB_eq.
  reflexivity.
Qed.

Lemma coll_A_flushed_eq :
  coll_A_flushed =
  mkCollection [] []
    (mkMongoDb
       [("cat", [("docA", 2)]); ("dog", [("docA", 1)])]
       [("docA", norm_A)]).
Proof.
  unfold coll_A_flushed, exec.
  rewrite (read_document_fresh tokenize_ex docA) by (reflexivity || counts_ok).
  rewrite flush_to_mongo_eq. reflexivity.
Qed.




Lemma add_document_returns_norm_witness :
  snd (add_document tokenize_ex docA []) =
    Ok (sqrt (weight_sum (tokenize_ex docA)))
  /\ snd (add_document tokenize_ex docB []) = Ok (sqrt (INR 1))
  /\ snd (add_document tokenize_ex docC []) = Ok (1 + ln (IZR 3))%R.
Proof.
  split; [| split].
  - apply (add_document_returns_norm tokenize_ex docA []). counts_ok.
  - assert (H : forall t c, In (t, c) (tokenize_ex docB) -> 1 <= c)
      by counts_ok.
    destruct (add_document_returns_norm tokenize_ex docB [] H) as (_ & H1 & _).
    apply H1. intros t c Hin. simpl in Hin.
    destruct Hin as [Hin | []]. now injection Hin as <- <-.
  - assert (H : forall t c, In (t, c) (tokenize_ex docC) -> 1 <= c)
      by counts_ok.
    destruct (add_document_returns_norm tokenize_ex docC [] H) as (_ & _ & H2).
    apply (H2 "cat" 3); [reflexivity | lia].
Defined.

Lemma read_document_known_noop_witness :
  dict_contains Document_eqb docA (documents coll_AB) = true
  /\ snd (read_document tokenize_ex docA coll_AB) = Ok tt
  /\ index (exec (read_document tokenize_ex docA) coll_AB) = index coll_AB
  /\ documents (exec (read_document tokenize_ex docA) coll_AB)
     = documents coll_AB
  /\ mongo_db (exec (read_document tokenize_ex docA) coll_AB)
     = mongo_db coll_AB.
Proof.
  assert (H : dict_contains Document_eqb docA (documents coll_AB) = true)
    by (rewrite coll_AB_eq; reflexivity).
  split; [exact H | exact (read_document_known_noop tokenize_ex docA coll_AB H)].
Defined.

(** ** The corpus-wide counts and the idf weight *)

Lemma count_nonneg {A} (coll : list A) : (0 <= IZR (count coll))%R.
Proof. unfold count. apply IZR_le. lia. Qed.

(** The idf weight, when the ['documents'] collection is not empty: the
    number of records of ['invertedIndex'] over the number of records of
    ['documents']. *)
Lemma idf_eq self :
  coll_documents (mongo_db self) <> [] ->
  idf self =
  (self,
   Ok (ln (1 + IZR (count (coll_invertedIndex (mongo_db self)))
               / IZR (count (coll_documents (mongo_db self)))))%R).
Proof.
  intro Hne. unfold idf, get_documents_count, get_index_count, bind, get, ret.
  assert (Hpos : (0 < IZR (count (coll_documents (mongo_db self))))%R).
  { unfold count. apply IZR_lt.
    destruct (coll_documents (mongo_db self)); [congruence | simpl; lia]. }
  unfold truediv.
  destruct (Req_dec_T _ _) as [E | _]; [lra |].
  unfold ret, math_log.
  destruct (Rle_dec _ _) as [Hle | _]; [| reflexivity].
  exfalso.
  pose proof (count_nonneg (coll_invertedIndex (mongo_db self))) as Hn.
  assert (0 <= IZR (count (coll_invertedIndex (mongo_db self)))
               / IZR (count (coll_documents (mongo_db self))))%R.
  { apply Rmult_le_pos; [exact Hn |]. left. now apply Rinv_0_lt_compat. }
  lra.
Qed.

(** With an empty ['documents'] collection the idf weight is a division by
    zero. *)
Lemma idf_zero_division self :
  coll_documents (mongo_db self) = [] ->
  idf self = (self, Raise ZeroDivisionError).
Proof.
  intro He. unfold idf, get_documents_count, get_index_count, bind, get, ret.
  rewrite He. unfold truediv. change (IZR (count (@nil (string * R)))) with 0%R.
  destruct (Req_dec_T 0%R 0%R) as [_ | N]; [reflexivity | congruence].
Qed.

(** C2, at the failing input: after one flush of docA, which is one
    document with the two distinct terms cat and dog, [get_documents_count]
    answers 2, the number of term records, and [get_index_count] answers 1,
    the number of norm records. *)
Theorem counts_of_flushed_docA :
  snd (get_documents_count coll_A_flushed) = Ok 2
  /\ snd (get_index_count coll_A_flushed) = Ok 1.
Proof. rewrite coll_A_flushed_eq. split; reflexivity. Qed.

(** C3, at the failing input: with the one document docA and its two terms
    flushed, the idf weight is [ln (1 + 2/1)], terms over documents, and not
    [ln (1 + 1/2)], documents over terms. *)
Theorem idf_of_flushed_docA :
  snd (idf coll_A_flushed) = Ok (ln (1 + 2 / 1))%R
  /\ ln (1 + 2 / 1)%R <> ln (1 + 1 / 2)%R.
Proof.
  split.
  - rewrite idf_eq by (rewrite coll_A_flushed_eq; discriminate).
    rewrite coll_A_flushed_eq. reflexivity.
  - intro H. apply ln_inv in H; lra.
Qed.

(** ** The queries *)

Section Queries.

Variable textpreprocess : string -> list Term.
Variable parse_query : string -> option bexpr.

Lemma readonly_get_documents_count : readonly get_documents_count.
Proof. apply readonly_bind; auto with readonly. Qed.

Lemma readonly_get_index_count : readonly get_index_count.
Proof. apply readonly_bind; auto with readonly. Qed.

Lemma readonly_get_documents_for_term term :
  readonly (get_documents_for_term term).
Proof.
  apply readonly_bind; auto with readonly.
  intro self. destruct (find_one term _); auto with readonly.
Qed.

Lemma readonly_get_only_documents_for_term term :
  readonly (get_only_documents_for_term term).
Proof.
  apply readonly_bind; auto with readonly.
  intro self. destruct (find_one term _); auto with readonly.
Qed.

Lemma readonly_get_documents_not_in other :
  readonly (get_documents_not_in other).
Proof. apply readonly_bind; auto with readonly. Qed.

Lemma readonly_get_document_L_d doc : readonly (get_document_L_d doc).
Proof.
  apply readonly_bind; auto with readonly.
  intro self. destruct (find_one doc _); auto with readonly.
Qed.

Lemma readonly_term_documents term : readonly (term_documents term).
Proof.
  apply readonly_bind;
    [apply readonly_get_only_documents_for_term | auto with readonly].
Qed.

Lemma readonly_rest_documents documents_set :
  readonly (rest_documents documents_set).
Proof. apply readonly_bind; auto with readonly. Qed.

(** The evaluator changes nothing when its two primitives change nothing. *)
Lemma readonly_eval_bexpr {St} (td : Term -> M St (list pyobj))
  (rd : list pyobj -> M St (list pyobj)) e :
  (forall t, readonly (td t)) -> (forall s, readonly (rd s)) ->
  readonly (eval_bexpr td rd e).
Proof.
  intros Htd Hrd.
  induction e as [t | a IHa b IHb | a IHa b IHb | a IHa]; simpl.
  - apply Htd.
  - apply readonly_bind; [exact IHa | intro x].
    apply readonly_bind; [exact IHb | auto with readonly].
  - apply readonly_bind; [exact IHa | intro x].
    apply readonly_bind; [exact IHb | auto with readonly].
  - apply readonly_bind; [exact IHa | apply Hrd].
Qed.

Lemma readonly_processquery_boolean q :
  readonly (processquery_boolean textpreprocess parse_query q).
Proof.
  unfold processquery_boolean, eval_query.
  destruct (parse_query _); [| apply readonly_raise].
  apply readonly_eval_bexpr;
    [apply readonly_term_documents | apply readonly_rest_documents].
Qed.

Lemma readonly_idf : readonly idf.
Proof.
  unfold idf.
  apply readonly_bind; [apply readonly_get_documents_count | intro dc].
  apply readonly_bind; [apply readonly_get_index_count | intro ic].
  apply readonly_bind; auto with readonly.
Qed.

Lemma readonly_score_term S term : readonly (score_term S term).
Proof.
  unfold score_term.
  apply readonly_bind; [apply readonly_idf | intro idf_t].
  apply readonly_bind; [apply readonly_get_documents_for_term | intro entries].
  apply readonly_for_each. auto with readonly.
Qed.

Lemma readonly_normalize_doc S d : readonly (normalize_doc S d).
Proof.
  unfold normalize_doc.
  apply readonly_bind; [apply readonly_get_document_L_d | intro l_d].
  apply readonly_bind; auto with readonly.
Qed.

Lemma readonly_vector_scores q_tokens : readonly (vector_scores q_tokens).
Proof.
  unfold vector_scores.
  apply readonly_bind.
  - apply readonly_for_each, readonly_score_term.
  - intro S. apply readonly_for_each, readonly_normalize_doc.
Qed.

Lemma readonly_processquery_vector q above top :
  readonly (processquery_vector textpreprocess q above top).
Proof.
  unfold processquery_vector.
  apply readonly_bind; [apply readonly_vector_scores | auto with readonly].
Qed.

(** C10: a boolean query and a vector query leave the posting table
    [self.index] and the norm table [self.documents] as they were, whether
    they return or raise. *)
Theorem queries_keep_tables :
  (forall q self,
      index (exec (processquery_boolean textpreprocess parse_query q) self)
      = index self
      /\ documents
           (exec (processquery_boolean textpreprocess parse_query q) self)
         = documents self)
  /\ (forall q above top self,
      index (exec (processquery_vector textpreprocess q above top) self)
      = index self
      /\ documents
           (exec (processquery_vector textpreprocess q above top) self)
         = documents self).
Proof.
  unfold exec. split; intros.
  - now rewrite readonly_processquery_boolean.
  - now rewrite readonly_processquery_vector.
Qed.

(** *** Unknown query terms *)

Lemma add_scores_loop idf_t entries S (self : Collection) :
  for_each
    (fun S doc_entry =>
       ret (dict_set String.eqb (fst doc_entry)
              (score_of (fst doc_entry) S + IZR (snd doc_entry) * idf_t)%R S))
    entries S self =
  (self, Ok (add_scores idf_t entries S)).
Proof.
  revert S. induction entries as [| e entries IH]; intro S; simpl.
  - reflexivity.
  - unfold bind, ret at 1. apply IH.
Qed.

Lemma score_term_known S term self ans :
  coll_documents (mongo_db self) <> [] ->
  find_one term (coll_invertedIndex (mongo_db self)) = Some ans ->
  score_term S term self =
  (self, Ok (add_scores (idf_value self) (snd ans) S)).
Proof.
  intros Hne Hf. unfold score_term, bind at 1. rewrite idf_eq by exact Hne.
  unfold bind at 1, get_documents_for_term, bind at 1, get. rewrite Hf.
  unfold ret at 1. apply add_scores_loop.
Qed.

Lemma score_term_unknown S term self :
  coll_documents (mongo_db self) <> [] ->
  find_one term (coll_invertedIndex (mongo_db self)) = None ->
  score_term S term self = (self, Raise (UnknownTerm term)).
Proof.
  intros Hne Hf. unfold score_term, bind at 1. rewrite idf_eq by exact Hne.
  unfold bind at 1, get_documents_for_term, bind at 1, get. rewrite Hf.
  reflexivity.
Qed.

Lemma score_term_no_documents S term self :
  coll_documents (mongo_db self) = [] ->
  score_term S term self = (self, Raise ZeroDivisionError).
Proof.
  intro He. unfold score_term, bind at 1. now rewrite idf_zero_division.
Qed.

(** The first loop stops at the first term without a record. *)
Lemma score_loop_unknown self q_tokens :
  coll_documents (mongo_db self) <> [] ->
  (exists t, In t q_tokens
             /\ find_one t (coll_invertedIndex (mongo_db self)) = None) ->
  forall S,
  exists pre t post,
    q_tokens = pre ++ t :: post
    /\ (forall u, In u pre -> known_term self u)
    /\ find_one t (coll_invertedIndex (mongo_db self)) = None
    /\ for_each score_term q_tokens S self = (self, Raise (UnknownTerm t)).
Proof.
  intros Hne. unfold known_term.
  induction q_tokens as [| term q_tokens IH]; intros [t [Hin Hunk]] S.
  - contradiction.
  - cbn [for_each]. unfold bind.
    destruct (find_one term (coll_invertedIndex (mongo_db self)))
      as [ans |] eqn:Hf.
    + rewrite (score_term_known _ _ _ ans) by assumption.
      destruct Hin as [-> | Hin]; [congruence |].
      destruct (IH (ex_intro _ t (conj Hin Hunk))
                  (add_scores (idf_value self) (snd ans) S))
        as (pre & t' & post & Heq & Hpre & Hunk' & Hrun).
      exists (term :: pre), t', post.
      split; [simpl; now rewrite Heq |].
      split; [| split; [exact Hunk' | exact Hrun]].
      intros u [<- | Hu]; [congruence | now apply Hpre].
    + rewrite score_term_unknown by assumption.
      exists [], term, q_tokens.
      split; [reflexivity |].
      split; [intros u [] | split; [exact Hf | reflexivity]].
Qed.

Lemma score_loop_known self q_tokens :
  (forall t, In t q_tokens -> known_term self t) ->
  forall S e,
    snd (for_each score_term q_tokens S self) = Raise e ->
    e = ZeroDivisionError.
Proof.
  unfold known_term.
  induction q_tokens as [| term q_tokens IH]; intros Hk S e.
  - discriminate.
  - cbn [for_each]. unfold bind.
    destruct (coll_documents (mongo_db self)) eqn:Hd.
    + rewrite score_term_no_documents by exact Hd. simpl. congruence.
    + destruct (find_one term (coll_invertedIndex (mongo_db self))) as [ans |] eqn:Hf.
      * rewrite (score_term_known _ _ _ ans) by (assumption || (rewrite Hd; discriminate)).
        apply IH. intros; apply Hk; now right.
      * exfalso. apply (Hk term); [now left | exact Hf].
Qed.

Lemma normalize_loop_no_unknown_term self keys :
  forall S t, snd (for_each normalize_doc keys S self) <> Raise (UnknownTerm t).
Proof.
  induction keys as [| d keys IH]; intros S t; simpl.
  - discriminate.
  - unfold bind at 1, normalize_doc, bind at 1, get_document_L_d, bind at 1, get.
    destruct (find_one d _) as [ans |]; simpl; [| discriminate].
    unfold bind at 1, truediv.
    destruct (Req_dec_T _ _); simpl; [discriminate | apply IH].
Qed.

End Queries.

Section VectorQuery.

Variable textpreprocess : string -> list Term.

(** C1, as the code has it: a vector query with a term that has no record
    in the flushed inverted index raises.  With a non-empty ['documents']
    collection it raises the unknown-term error of [get_documents_for_term]
    for the first such term of the query; with an empty one the idf
    computation of the first term divides by zero.  A query whose terms all
    have a record never raises an unknown-term error.  The state is left
    unchanged in each case. *)
Theorem processquery_vector_unknown_term q above top self :
  ((exists t, In t (textpreprocess q)
              /\ find_one t (coll_invertedIndex (mongo_db self)) = None) ->
   (coll_documents (mongo_db self) = [] ->
    processquery_vector textpreprocess q above top self
    = (self, Raise ZeroDivisionError))
   /\ (coll_documents (mongo_db self) <> [] ->
       exists pre t post,
         textpreprocess q = pre ++ t :: post
         /\ (forall u, In u pre -> known_term self u)
         /\ find_one t (coll_invertedIndex (mongo_db self)) = None
         /\ processquery_vector textpreprocess q above top self
            = (self, Raise (UnknownTerm t))))
  /\ ((forall t, In t (textpreprocess q) -> known_term self t) ->
      forall t,
        snd (processquery_vector textpreprocess q above top self)
        <> Raise (UnknownTerm t)).
Proof.
  unfold processquery_vector, vector_scores. split.
  - intros Hex. split.
    + intro He. destruct Hex as [t [Hin _]].
      destruct (textpreprocess q) as [| term q_tokens]; [contradiction |].
      cbn [for_each]. unfold bind at 1, bind at 1, bind at 1.
      now rewrite score_term_no_documents.
    + intro Hne.
      destruct (score_loop_unknown self (textpreprocess q) Hne Hex [])
        as (pre & t & post & Heq & Hpre & Hunk & Hrun).
      exists pre, t, post. repeat (split; [assumption |]).
      unfold bind at 1, bind at 1. now rewrite Hrun.
  - intros Hk t. unfold bind at 1, bind at 1.
    pose proof (score_loop_known self (textpreprocess q) Hk []) as Hloop.
    pose proof (readonly_for_each score_term (textpreprocess q)
                  readonly_score_term [] self) as Hro.
    destruct (for_each score_term (textpreprocess q) [] self) as [s' [S | e]].
    + simpl in Hro. subst s'.
      pose proof (normalize_loop_no_unknown_term self (dict_keys S) S t) as Hn.
      destruct (for_each normalize_doc (dict_keys S) S self) as [s'' [S' | e]];
        simpl in *; [discriminate | exact Hn].
    + simpl. rewrite (Hloop e eq_refl). discriminate.
Qed.

End VectorQuery.

(** C1, the claim as stated fails: "bird" has no record in the store that
    holds docA and docB, and the vector query "bird" raises the
    unknown-term error. *)
Lemma vector_query_bird_raises :
  find_one "bird" (coll_invertedIndex (mongo_db coll_AB_flushed)) = None
  /\ snd (processquery_vector textpreprocess_ex "bird" (2 / 10) (-1)
            coll_AB_flushed)
     = Raise (UnknownTerm "bird").
Proof.
  assert (Hunk : find_one "bird" (coll_invertedIndex (mongo_db coll_AB_flushed))
                 = None) by (rewrite coll_AB_flushed_eq; reflexivity).
  split; [exact Hunk |].
  unfold processquery_vector, vector_scores, textpreprocess_ex.
  cbn [for_each]. unfold bind at 1, bind at 1, bind at 1.
  rewrite score_term_unknown;
    [reflexivity | rewrite coll_AB_flushed_eq; discriminate | exact Hunk].
Qed.

Lemma processquery_vector_unknown_term_witness :
  (exists t, In t (textpreprocess_ex "bird")
             /\ find_one t (coll_invertedIndex (mongo_db coll_AB_flushed))
                = None)
  /\ coll_documents (mongo_db coll_AB_flushed) <> []
  /\ (exists pre t post,
         textpreprocess_ex "bird" = pre ++ t :: post
         /\ (forall u, In u pre -> known_term coll_AB_flushed u)
         /\ find_one t (coll_invertedIndex (mongo_db coll_AB_flushed)) = None
         /\ processquery_vector textpreprocess_ex "bird" (2 / 10) (-1)
              coll_AB_flushed
            = (coll_AB_flushed, Raise (UnknownTerm t)))
  /\ (forall t, In t (textpreprocess_ex "dog") ->
                known_term coll_AB_flushed t)
  /\ (forall t,
         snd (processquery_vector textpreprocess_ex "dog" (2 / 10) (-1)
                coll_AB_flushed)
         <> Raise (UnknownTerm t)).
Proof.
  assert (Hex : exists t, In t (textpreprocess_ex "bird")
             /\ find_one t (coll_invertedIndex (mongo_db coll_AB_flushed))
                = None).
  { exists "bird". split; [now left |].
    rewrite coll_AB_flushed_eq. reflexivity. }
  assert (Hne : coll_documents (mongo_db coll_AB_flushed) <> [])
    by (rewrite coll_AB_flushed_eq; discriminate).
  assert (Hk : forall t, In t (textpreprocess_ex "dog") ->
                         known_term coll_AB_flushed t).
  { intros t [<- | []]. unfold known_term. rewrite coll_AB_flushed_eq.
    discriminate. }
  split; [exact Hex |]. split; [exact Hne |]. split; [| split; [exact Hk |]].
  - destruct (processquery_vector_unknown_term textpreprocess_ex "bird"
                (2 / 10) (-1) coll_AB_flushed) as [Hraise _].
    destruct (Hraise Hex) as [_ Hunk]. exact (Hunk Hne).
  - destruct (processquery_vector_unknown_term textpreprocess_ex "dog"
                (2 / 10) (-1) coll_AB_flushed) as [_ Hknown].
    exact (Hknown Hk).
Defined.

(** ** The complement primitive of the boolean engine *)

(** After a flush the complement primitive has no document left to return. *)
Lemma rest_documents_after_flush self documents_set :
  rest_documents documents_set (exec flush_to_mongo self)
  = (exec flush_to_mongo self, Ok []).
Proof.
  unfold exec. rewrite flush_to_mongo_eq. reflexivity.
Qed.

(** C4, at the failing input: with docA ("cat dog cat") and docB ("dog")
    flushed, the store holds both documents and [get_documents_not_in]
    answers from it, but the complement primitive [rest_documents] handed
    to the evaluator reads the emptied in-memory norm table: it returns the
    empty set, for the set of the documents of "cat" and after any flush,
    and the boolean query "NOT cat" returns no document instead of docB. *)
Theorem rest_documents_ignores_store :
  snd (term_documents "cat" coll_AB_flushed) = Ok [PyStr "docA"]
  /\ snd (get_documents_not_in ["docA"] coll_AB_flushed) = Ok ["docB"]
  /\ snd (rest_documents [PyStr "docA"] coll_AB_flushed) = Ok []
  /\ snd (processquery_boolean textpreprocess_ex parse_query_ex "NOT cat"
            coll_AB_flushed) = Ok []
  /\ (forall self documents_set,
         snd (rest_documents documents_set (exec flush_to_mongo self))
         = Ok []).
Proof.
  rewrite coll_AB_flushed_eq.
  repeat split; try reflexivity.
  intros self documents_set. now rewrite rest_documents_after_flush.
Qed.

(** ** The similarity floor and the cut of [processquery_vector] *)

Lemma insert_desc_perm {A} (x : A * R) l :
  Permutation (insert_desc x l) (x :: l).
Proof.
  induction l as [| y l IH]; simpl.
  - apply Permutation_refl.
  - destruct (Rle_dec (snd y) (snd x)).
    + apply Permutation_refl.
    + eapply perm_trans; [apply perm_skip, IH | apply perm_swap].
Qed.

Lemma sorted_desc_perm {A} (l : list (A * R)) :
  Permutation (sorted_desc l) l.
Proof.
  induction l as [| x l IH]; simpl.
  - apply Permutation_refl.
  - eapply perm_trans; [apply insert_desc_perm | apply perm_skip, IH].
Qed.

Lemma insert_desc_sorted {A} (x : A * R) l :
  StronglySorted score_ge l -> StronglySorted score_ge (insert_desc x l).
Proof.
  induction l as [| y l IH]; intro Hs; simpl.
  - constructor; constructor.
  - inversion Hs as [| y' l' Hl Hy]; subst.
    destruct (Rle_dec (snd y) (snd x)) as [Hle | Hgt].
    + constructor; [exact Hs |].
      constructor; [exact Hle |].
      rewrite Forall_forall in *. intros z Hz. specialize (Hy z Hz).
      unfold score_ge in *. lra.
    + constructor; [apply IH, Hl |].
      rewrite Forall_forall in *. intros z Hz.
      apply (Permutation_in _ (insert_desc_perm x l)) in Hz.
      destruct Hz as [<- | Hz]; [unfold score_ge; lra | now apply Hy].
Qed.

Lemma sorted_desc_sorted {A} (l : list (A * R)) :
  StronglySorted score_ge (sorted_desc l).
Proof.
  induction l as [| x l IH]; simpl.
  - constructor.
  - apply insert_desc_sorted, IH.
Qed.

Lemma sorted_app_split {A} (a b : list (A * R)) :
  StronglySorted score_ge (a ++ b) ->
  forall x y, In x a -> In y b -> (snd y <= snd x)%R.
Proof.
  induction a as [| z a IH]; intros Hs x y Hx Hy; [contradiction |].
  simpl in Hs. inversion Hs as [| z' l' Hl Hz]; subst.
  destruct Hx as [<- | Hx].
  - rewrite Forall_forall in Hz. apply Hz, in_or_app. now right.
  - now apply IH.
Qed.

(** [nlargest] keeps a prefix of the ranking: at most [n] elements, all
    taken from the list, none ranked below one that is left out. *)
Lemma nlargest_spec {A} (n : Z) (l : list (A * R)) :
  List.length (nlargest n l) = Nat.min (Z.to_nat n) (List.length l)
  /\ exists rest,
       Permutation (nlargest n l ++ rest) l
       /\ forall x y, In x (nlargest n l) -> In y rest -> (snd y <= snd x)%R.
Proof.
  unfold nlargest. split.
  - rewrite length_firstn. f_equal.
    apply Permutation_length, sorted_desc_perm.
  - exists (skipn (Z.to_nat n) (sorted_desc l)). split.
    + rewrite firstn_skipn. apply sorted_desc_perm.
    + apply sorted_app_split. rewrite firstn_skipn. apply sorted_desc_sorted.
Qed.

Lemma select_passed_all above S :
  forall d v,
    In (d, v) (select_passed above (-1) S) <->
    In (d, v) S /\ ((0 < above)%R -> (above <= v)%R).
Proof.
  intros d v. unfold select_passed. simpl.
  destruct (Rlt_dec 0 above) as [Hpos | Hnpos].
  - rewrite filter_In. simpl.
    destruct (Rle_dec above v) as [Hle | Hgt].
    + split; intros [H1 H2]; split; auto.
    + split; intros [H1 H2]; [discriminate | exfalso; auto].
  - split; [intro H; split; [exact H | intro; contradiction] | now intros [H _]].
Qed.

Lemma select_passed_cut above top S :
  0 <= top ->
  select_passed above top S = nlargest top (select_passed above (-1) S).
Proof.
  intro Htop. unfold select_passed.
  replace (top <? 0) with false by (symmetry; apply Z.ltb_ge; lia).
  reflexivity.
Qed.

Section Select.

Variable textpreprocess : string -> list Term.

(** C8: let [S] be the normalised scores of a vector query.  With
    [top = -1] the result holds exactly the pairs of [S] whose score is at
    least [above] when [above > 0], and it is [S] itself when [above <= 0].
    With [top < 0] nothing is cut.  With [top = K >= 0] the result has
    [min K n] elements, [n] the size of the result for [top = -1]; its
    pairs are pairs of that result, and completing it with the pairs left
    out gives that result again, none of those scoring more than a pair
    that was kept. *)
Theorem processquery_vector_floor_and_cut q above top self S :
  snd (vector_scores (textpreprocess q) self) = Ok S ->
  exists r_all r,
    processquery_vector textpreprocess q above (-1) self = (self, Ok r_all)
    /\ processquery_vector textpreprocess q above top self = (self, Ok r)
    /\ ((0 < above)%R ->
        forall d v, In (d, v) r_all <-> In (d, v) S /\ (above <= v)%R)
    /\ ((above <= 0)%R -> r_all = S)
    /\ (top < 0 -> r = r_all)
    /\ (0 <= top ->
        Z.of_nat (List.length r) <= top
        /\ List.length r = Nat.min (Z.to_nat top) (List.length r_all)
        /\ incl r r_all
        /\ exists rest,
             Permutation (r ++ rest) r_all
             /\ forall x y, In x r -> In y rest -> (snd y <= snd x)%R).
Proof.
  intro HS.
  pose proof (readonly_run _ self (readonly_vector_scores (textpreprocess q)))
    as Hrun.
  rewrite HS in Hrun.
  exists (select_passed above (-1) S), (select_passed above top S).
  unfold processquery_vector, bind. rewrite Hrun.
  split; [reflexivity |]. split; [reflexivity |].
  split; [| split; [| split]].
  - intros Hpos d v. rewrite select_passed_all. tauto.
  - intro Hle. unfold select_passed. simpl.
    destruct (Rlt_dec 0 above); [lra | reflexivity].
  - intro Hneg. unfold select_passed.
    replace (top <? 0) with true by (symmetry; apply Z.ltb_lt; lia).
    reflexivity.
  - intro Htop. rewrite (select_passed_cut above top S Htop).
    destruct (nlargest_spec top (select_passed above (-1) S))
      as [Hlen [rest [Hperm Hrank]]].
    split; [rewrite Hlen; lia |]. split; [exact Hlen |]. split.
    + intros x Hx. apply (Permutation_in _ Hperm), in_or_app. now left.
    + exists rest. split; assumption.
Qed.

End Select.

(** ** More on dictionaries *)

Section DictFacts.

Context {K V : Type} (eqb : K -> K -> bool).

Lemma dict_set_keys k (v : V) m k' :
  In k' (dict_keys (dict_set eqb k v m)) -> k' = k \/ In k' (dict_keys m).
Proof.
  unfold dict_keys. induction m as [| [k0 v0] m IH]; simpl.
  - intros [<- | []]. now left.
  - destruct (eqb k0 k); simpl.
    + intros [H | H]; right; [now left | now right].
    + intros [H | H]; [right; now left |].
      destruct (IH H) as [-> | H']; [now left | right; now right].
Qed.

Lemma dict_set_in k (v : V) m k' v' :
  In (k', v') (dict_set eqb k v m) ->
  In (k', v') m \/ (v' = v /\ (k' = k \/ eqb k' k = true)).
Proof.
  induction m as [| [k0 v0] m IH]; simpl.
  - intros [H | []]. injection H as <- <-. right. split; [reflexivity | now left].
  - destruct (eqb k0 k) eqn:E; simpl.
    + intros [H | H].
      * injection H as <- <-. right. split; [reflexivity | now right].
      * left. now right.
    + intros [H | H]; [left; now left |].
      destruct (IH H) as [H' | H']; [left; now right | now right].
Qed.

Lemma dict_set_keys_mono k (v : V) m k' :
  In k' (dict_keys m) -> In k' (dict_keys (dict_set eqb k v m)).
Proof.
  unfold dict_keys. induction m as [| [k0 v0] m IH]; simpl; [contradiction |].
  destruct (eqb k0 k); simpl; intros [H | H]; auto.
Qed.

Lemma dict_set_keys_new k (v : V) m :
  (forall a b, eqb a b = true -> a = b) ->
  In k (dict_keys (dict_set eqb k v m)).
Proof.
  intro Heq. unfold dict_keys. induction m as [| [k0 v0] m IH]; simpl.
  - now left.
  - destruct (eqb k0 k) eqn:E; simpl; [left; now apply Heq | now right].
Qed.

Lemma dict_get_in k m (v : V) :
  dict_get eqb k m = Some v -> exists k', In (k', v) m.
Proof.
  induction m as [| [k0 v0] m IH]; simpl; [discriminate |].
  destruct (eqb k0 k).
  - intro H. injection H as <-. exists k0. now left.
  - intro H. destruct (IH H) as [k' Hin]. exists k'. now right.
Qed.

End DictFacts.

Lemma find_one_some {V} k (coll : list (string * V)) ans :
  find_one k coll = Some ans -> In ans coll /\ fst ans = k.
Proof.
  unfold find_one. intro H. apply find_some in H.
  destruct H as [Hin Heq]. apply String.eqb_eq in Heq. now split.
Qed.

Lemma find_one_of_key {V} k (coll : list (string * V)) :
  In k (map fst coll) -> exists ans, find_one k coll = Some ans.
Proof.
  unfold find_one. induction coll as [| r coll IH]; simpl; [contradiction |].
  intros [<- | H].
  - rewrite String.eqb_refl. now exists r.
  - destruct (String.eqb (fst r) k); [now exists r | now apply IH].
Qed.

(** ** The invariant of collections built with one tokenization per location *)

Section Built.

Variable tokenize : Document -> list (Term * Z).

Lemma posting_doc_index_set term d cnt idx d' :
  posting_doc (index_set term d cnt idx) d' -> d' = d \/ posting_doc idx d'.
Proof.
  unfold index_set. intros (term' & docs' & Hin & Hd).
  apply dict_set_in in Hin. destruct Hin as [Hin | [-> _]].
  - right. now exists term', docs'.
  - apply dict_set_keys in Hd. destruct Hd as [-> | Hd]; [now left |].
    destruct (dict_get String.eqb term idx) as [docs |] eqn:Hg;
      [| contradiction].
    apply dict_get_in in Hg. destruct Hg as [term0 Hg].
    right. now exists term0, docs.
Qed.

Lemma posting_doc_index_add d items idx d' :
  posting_doc (index_add d items idx) d' ->
  (d' = d /\ items <> []) \/ posting_doc idx d'.
Proof.
  unfold index_add. revert idx.
  induction items as [| [t c] items IH]; intro idx; simpl.
  - now right.
  - intro H. destruct (IH _ H) as [[-> _] | H'].
    + left. split; [reflexivity | discriminate].
    + apply posting_doc_index_set in H'. destruct H' as [-> | H'].
      * left. split; [reflexivity | discriminate].
      * now right.
Qed.

Lemma mkDocument_location d : mkDocument (location d) = d.
Proof. now destruct d. Qed.

Lemma consistent_init : consistent tokenize (Collection_init empty_db).
Proof.
  constructor; simpl; try contradiction.
  - intros d (term & docs & [] & _).
  - intros doc (term & ans & [] & _).
Qed.

Lemma consistent_read d self :
  consistent tokenize self -> counts_ok (tokenize d) ->
  consistent tokenize (exec (read_document tokenize d) self).
Proof.
  intros [Hmn Hmp Hsn Hsp] Hc. unfold exec.
  destruct (dict_contains Document_eqb d (documents self)) eqn:Hknown.
  - rewrite read_document_known_eq by exact Hknown. now constructor.
  - rewrite read_document_fresh by assumption. simpl.
    constructor; simpl; [| | exact Hsn | exact Hsp].
    + intros d' l_d Hin. apply dict_set_in in Hin.
      destruct Hin as [Hin | [-> Hd]]; [now apply Hmn |].
      assert (d' = d) as -> by (destruct Hd; [assumption | now apply Document_eqb_eq]).
      now split.
    + intros d' Hp. apply posting_doc_index_add in Hp.
      destruct Hp as [[-> Hne] | Hp].
      * split; [exact Hne |].
        apply dict_set_keys_new. intros a b. apply Document_eqb_eq.
      * destruct (Hmp d' Hp) as [Hne Hin].
        split; [exact Hne | now apply dict_set_keys_mono].
Qed.

Lemma stored_doc_push term mdocs coll doc :
  stored_doc (update_push_upsert term mdocs coll) doc ->
  stored_doc coll doc \/ In doc (map fst mdocs).
Proof.
  unfold stored_doc. induction coll as [| [t ds] coll IH]; simpl.
  - intros (term' & ans & [H | []] & Hd). injection H as <- <-. now right.
  - destruct (String.eqb t term).
    + intros (term' & ans & [H | H] & Hd).
      * injection H as <- <-. rewrite map_app in Hd.
        apply in_app_or in Hd. destruct Hd as [Hd | Hd]; [| now right].
        left. exists t, ds. split; [now left | exact Hd].
      * left. exists term', ans. split; [now right | exact Hd].
    + intros (term' & ans & [H | H] & Hd).
      * left. exists term', ans. split; [now left | exact Hd].
      * destruct IH as [(term'' & ans'' & Hin & Hd') | Hm];
          [now exists term', ans | | now right].
        left. exists term'', ans''. split; [now right | exact Hd'].
Qed.

Lemma stored_doc_push_terms items db doc :
  stored_doc
    (coll_invertedIndex (fold_left (fun db item => push_term item db) items db))
    doc ->
  stored_doc (coll_invertedIndex db) doc
  \/ exists d, posting_doc items d /\ doc = location d.
Proof.
  revert db. induction items as [| [term docs] items IH]; intro db; simpl.
  - now left.
  - intro H. destruct (IH _ H) as [H' | (d & (t & ds & Hin & Hd) & ->)].
    + unfold push_term in H'. simpl in H'. apply stored_doc_push in H'.
      destruct H' as [H' | H']; [now left |].
      right. unfold mongo_docs in H'. rewrite map_map in H'. simpl in H'.
      apply in_map_iff in H'. destruct H' as ([d c] & <- & Hin).
      exists d. split; [| reflexivity].
      exists term, docs. split; [now left |].
      unfold dict_keys. now apply (in_map fst) in Hin.
    + right. exists d. split; [| reflexivity].
      exists t, ds. split; [now right | exact Hd].
Qed.

Lemma consistent_flush self :
  consistent tokenize self -> consistent tokenize (exec flush_to_mongo self).
Proof.
  intros [Hmn Hmp Hsn Hsp]. unfold exec. rewrite flush_to_mongo_eq. simpl.
  assert (Hempty : forall d, ~ posting_doc [] d)
    by (intros d (term & docs & [] & _)).
  destruct (truthy (index self) && truthy (documents self)).
  - constructor; simpl; try contradiction.
    + intros d Hp. now apply Hempty in Hp.
    + unfold insert_many. rewrite push_terms_documents.
      intros doc l_d Hin. apply in_app_or in Hin.
      destruct Hin as [Hin | Hin]; [now apply Hsn |].
      unfold mongo_docs in Hin. apply in_map_iff in Hin.
      destruct Hin as ([d l] & Heq & Hin). injection Heq as <- <-.
      rewrite mkDocument_location. now apply Hmn.
    + unfold insert_many. rewrite push_terms_documents.
      intros doc Hs. apply stored_doc_push_terms in Hs.
      rewrite map_app.
      destruct Hs as [Hs | (d & Hp & ->)].
      * destruct (Hsp doc Hs) as [Hne Hin].
        split; [exact Hne | apply in_or_app; now left].
      * destruct (Hmp d Hp) as [Hne Hin].
        rewrite mkDocument_location. split; [exact Hne |].
        apply in_or_app. right.
        unfold mongo_docs. rewrite map_map. simpl.
        unfold dict_keys in Hin. apply in_map_iff in Hin.
        destruct Hin as (e & <- & Hin).
        apply in_map_iff. now exists e.
  - constructor; simpl; try contradiction; try assumption.
    intros d Hp. now apply Hempty in Hp.
Qed.

Lemma built_consistent self : built_stable tokenize self -> consistent tokenize self.
Proof.
  induction 1 as [| d self _ IH Hc | self _ IH].
  - apply consistent_init.
  - now apply consistent_read.
  - now apply consistent_flush.
Qed.

End Built.

(** ** The normalisation step of [processquery_vector] *)

Lemma add_scores_keys idf_t entries S d :
  In d (dict_keys (add_scores idf_t entries S)) ->
  In d (dict_keys S) \/ In d (map fst entries).
Proof.
  unfold add_scores. revert S.
  induction entries as [| e entries IH]; intro S; simpl.
  - now left.
  - intro H. destruct (IH _ H) as [H' | H']; [| right; now right].
    apply dict_set_keys in H'. destruct H' as [-> | H'].
    + right. now left.
    + now left.
Qed.

(** The documents that accumulate a score have a posting in the store. *)
Lemma score_loop_keys self q_tokens :
  forall S0 S,
    snd (for_each score_term q_tokens S0 self) = Ok S ->
    forall d, In d (dict_keys S) ->
              In d (dict_keys S0)
              \/ stored_doc (coll_invertedIndex (mongo_db self)) d.
Proof.
  induction q_tokens as [| term q_tokens IH]; intros S0 S.
  - simpl. intro H. injection H as <-. now left.
  - cbn [for_each]. unfold bind.
    destruct (coll_documents (mongo_db self)) eqn:Hd.
    + rewrite score_term_no_documents by exact Hd. discriminate.
    + assert (Hne : coll_documents (mongo_db self) <> [])
        by (rewrite Hd; discriminate).
      destruct (find_one term (coll_invertedIndex (mongo_db self)))
        as [ans |] eqn:Hf.
      * rewrite (score_term_known _ _ _ ans) by assumption.
        intros Hrun d Hin. destruct (IH _ _ Hrun d Hin) as [H | H];
          [| now right].
        apply add_scores_keys in H. destruct H as [H | H]; [now left |].
        right. apply find_one_some in Hf. destruct Hf as [Hf _].
        exists (fst ans), (snd ans). split; [| exact H].
        now destruct ans.
      * rewrite score_term_unknown by assumption. discriminate.
Qed.

(** The normalisation loop over documents whose stored norm is not 0. *)
Lemma normalize_loop_ok self keys :
  (forall d, In d keys ->
             exists ans, find_one d (coll_documents (mongo_db self)) = Some ans
                         /\ snd ans <> 0%R) ->
  forall S,
    for_each normalize_doc keys S self
    = (self, Ok (normalize_all self keys S)).
Proof.
  unfold normalize_all.
  induction keys as [| d keys IH]; intros Hk S; cbn [for_each fold_left].
  - reflexivity.
  - destruct (Hk d (or_introl eq_refl)) as (ans & Hf & Hnz).
    unfold bind at 1, normalize_doc, bind at 1, get_document_L_d, bind at 1, get.
    rewrite Hf. unfold ret at 1, bind at 1, truediv.
    destruct (Req_dec_T (snd ans) 0) as [E | _]; [contradiction |].
    unfold ret at 1. unfold norm_of at 2. rewrite Hf.
    apply IH. intros d' Hd'. apply Hk. now right.
Qed.

Section Normalisation.

Variable tokenize : Document -> list (Term * Z).

(** In a consistent collection the norm of a location with a posting is at
    least 1. *)
Lemma stored_doc_norm self doc :
  consistent tokenize self ->
  stored_doc (coll_invertedIndex (mongo_db self)) doc ->
  exists ans, find_one doc (coll_documents (mongo_db self)) = Some ans
              /\ (1 <= snd ans)%R.
Proof.
  intros [_ _ Hsn Hsp] Hs. destruct (Hsp doc Hs) as [Hne Hin].
  destruct (find_one_of_key _ _ Hin) as [ans Hf].
  exists ans. split; [exact Hf |].
  apply find_one_some in Hf. destruct Hf as [Hans Hkey].
  destruct ans as [doc' l_d]. simpl in *. subst doc'.
  destruct (Hsn doc l_d Hans) as [Hc ->].
  rewrite <- sqrt_1. apply sqrt_le_1_alt.
  now apply weight_sum_ge_1.
Qed.

(** In a consistent collection every document scored by the first loop
    has a stored norm, which is at least 1. *)
Lemma scored_docs_have_norm self q_tokens S :
  consistent tokenize self ->
  snd (for_each score_term q_tokens [] self) = Ok S ->
  forall d, In d (dict_keys S) ->
            exists ans, find_one d (coll_documents (mongo_db self)) = Some ans
                        /\ (1 <= snd ans)%R.
Proof.
  intros Hc HS d Hd. apply (stored_doc_norm self d Hc).
  destruct (score_loop_keys self q_tokens [] S HS d Hd) as [[] | H].
  exact H.
Qed.

(** The two loops of [processquery_vector] on a collection of
    [built_stable]. *)
Lemma vector_scores_built self q_tokens S :
  built_stable tokenize self ->
  snd (for_each score_term q_tokens [] self) = Ok S ->
  vector_scores q_tokens self
  = (self, Ok (normalize_all self (dict_keys S) S)).
Proof.
  intros Hb HS. apply built_consistent in Hb.
  pose proof (readonly_run _ self
                (readonly_for_each score_term q_tokens readonly_score_term []))
    as Hrun.
  rewrite HS in Hrun. unfold vector_scores, bind. rewrite Hrun.
  apply normalize_loop_ok. intros d Hd.
  destruct (scored_docs_have_norm self q_tokens S Hb HS d Hd)
    as (ans & Hf & Hge).
  exists ans. split; [exact Hf | lra].
Qed.


End Normalisation.

(** ** The query "dog" on the small corpus *)

Lemma built_coll_AB_flushed : built_stable tokenize_ex coll_AB_flushed.
Proof.
  unfold coll_AB_flushed, coll_AB.
  apply stable_flush, stable_read; [apply stable_read |]; try counts_ok.
  apply stable_init.
Qed.

Lemma score_loop_dog :
  for_each score_term (textpreprocess_ex "dog") [] coll_AB_flushed
  = (coll_AB_flushed, Ok scores_dog).
Proof.
  unfold textpreprocess_ex. cbn [for_each]. unfold bind.
  rewrite (score_term_known _ _ _ ("dog", [("docA", 1); ("docB", 1)])).
  - reflexivity.
  - rewrite coll_AB_flushed_eq. discriminate.
  - rewrite coll_AB_flushed_eq. reflexivity.
Qed.

Lemma vector_scores_dog :
  vector_scores (textpreprocess_ex "dog") coll_AB_flushed
  = (coll_AB_flushed, Ok scores_dog_normalised).
Proof.
  apply (vector_scores_built tokenize_ex).
  - apply built_coll_AB_flushed.
  - now rewrite score_loop_dog.
Qed.


Lemma processquery_vector_floor_and_cut_witness :
  snd (vector_scores (textpreprocess_ex "dog") coll_AB_flushed)
  = Ok scores_dog_normalised
  /\ exists r_all r,
       processquery_vector textpreprocess_ex "dog" 0 (-1) coll_AB_flushed
       = (coll_AB_flushed, Ok r_all)
       /\ processquery_vector textpreprocess_ex "dog" 0 1 coll_AB_flushed
          = (coll_AB_flushed, Ok r)
       /\ r_all = scores_dog_normalised
       /\ Z.of_nat (List.length r) <= 1
       /\ incl r r_all.
Proof.
  assert (Hs : snd (vector_scores (textpreprocess_ex "dog") coll_AB_flushed)
               = Ok scores_dog_normalised)
    by (now rewrite vector_scores_dog).
  split; [exact Hs |].
  destruct (processquery_vector_floor_and_cut textpreprocess_ex "dog" 0 1
              coll_AB_flushed scores_dog_normalised Hs)
    as (r_all & r & Hall & Hr & _ & Hfloor & _ & Hcut).
  exists r_all, r.
  destruct (Hcut ltac:(lia)) as (Hlen & _ & Hincl & _).
  repeat split; [exact Hall | exact Hr | apply Hfloor; lra | exact Hlen
                 | exact Hincl].
Defined.

(** ** The store readers *)

Lemma existsb_eqb_in x l :
  existsb (String.eqb x) l = true <-> In x l.
Proof.
  rewrite existsb_exists. split.
  - intros (y & Hy & E). apply String.eqb_eq in E. now subst.
  - intro H. exists x. split; [exact H | apply String.eqb_refl].
Qed.

Lemma in_map_fst_iff {A B} (l : list (A * B)) a :
  In a (map fst l) <-> exists b, In (a, b) l.
Proof.
  rewrite in_map_iff. split.
  - intros ([a' b] & <- & H). now exists b.
  - intros (b & H). now exists (a, b).
Qed.

(** X1: [get_only_documents_for_term] never raises and changes nothing.
    Its answer has no repetition and holds exactly the locations of the
    postings that [get_documents_for_term] would return for the term; for a
    term without a record it is empty. *)
Theorem get_only_documents_for_term_is_posting_set term self :
  exists docs,
    get_only_documents_for_term term self = (self, Ok docs)
    /\ NoDup docs
    /\ (forall d, In d docs <->
                  exists cnt, stored_posting (mongo_db self) term d cnt)
    /\ (find_one term (coll_invertedIndex (mongo_db self)) = None ->
        docs = []).
Proof.
  unfold get_only_documents_for_term, bind, get, stored_posting.
  destruct (find_one term (coll_invertedIndex (mongo_db self))) as [ans |].
  - exists (set_of (map fst (snd ans))). split; [reflexivity |].
    split; [apply NoDup_nodup |]. split; [| discriminate].
    intro d. unfold set_of. rewrite nodup_In, in_map_fst_iff. split.
    + intros (c & Hc). exists c, ans. now split.
    + intros (c & ans' & E & Hc). injection E as <-. now exists c.
  - exists []. split; [reflexivity |]. split; [constructor |].
    split; [| reflexivity].
    intro d. split; [contradiction | intros (c & ans & E & _); discriminate].
Qed.

(** What [get_documents_not_in] answers. *)
Lemma get_documents_not_in_eq other self :
  get_documents_not_in other self =
  (self, Ok (set_of (map fst (find_nin other
                                (coll_documents (mongo_db self)))))).
Proof. reflexivity. Qed.

Lemma in_docs_not_in other (coll : list (string * R)) d :
  In d (set_of (map fst (find_nin other coll))) <->
  In d (map fst coll) /\ ~ In d other.
Proof.
  unfold set_of, find_nin. rewrite nodup_In, in_map_iff. split.
  - intros (r & <- & Hr). apply filter_In in Hr. destruct Hr as [Hr Hn].
    split; [now apply in_map |].
    intro Hin. apply existsb_eqb_in in Hin. rewrite Hin in Hn. discriminate.
  - intros [Hin Hn]. apply in_map_iff in Hin. destruct Hin as (r & <- & Hr).
    exists r. split; [reflexivity |]. apply filter_In. split; [exact Hr |].
    destruct (existsb (String.eqb (fst r)) other) eqn:E; [| reflexivity].
    apply existsb_eqb_in in E. contradiction.
Qed.

(** X2: [get_documents_not_in] never raises and changes nothing.  Its
    answer has no repetition and holds exactly the locations that have a
    norm record in the store and are not in the excluded set. *)
Theorem get_documents_not_in_is_complement other self :
  exists docs,
    get_documents_not_in other self = (self, Ok docs)
    /\ NoDup docs
    /\ (forall d, In d docs <->
                  In d (map fst (coll_documents (mongo_db self)))
                  /\ ~ In d other).
Proof.
  eexists. split; [apply get_documents_not_in_eq |].
  split; [apply NoDup_nodup | intro d; apply in_docs_not_in].
Qed.

(** X3: complementing twice against the store gives back the documents of
    the set that the store knows. *)
Theorem get_documents_not_in_twice other self c1 c2 :
  snd (get_documents_not_in other self) = Ok c1 ->
  snd (get_documents_not_in c1 self) = Ok c2 ->
  forall d, In d c2 <->
            In d other /\ In d (map fst (coll_documents (mongo_db self))).
Proof.
  rewrite !get_documents_not_in_eq. simpl.
  intros H1 H2 d. injection H1 as <-. injection H2 as <-.
  rewrite in_docs_not_in, in_docs_not_in. split.
  - intros [Hs Hn]. split; [| exact Hs].
    destruct (in_dec string_dec d other) as [Hin | Hout]; [exact Hin |].
    exfalso. apply Hn. now split.
  - intros [Hin Hs]. split; [exact Hs |]. intros [_ Hn]. contradiction.
Qed.

Lemma get_documents_not_in_twice_witness :
  snd (get_documents_not_in ["docA"] coll_AB_flushed) = Ok ["docB"]
  /\ snd (get_documents_not_in ["docB"] coll_AB_flushed) = Ok ["docA"]
  /\ forall d, In d ["docA"] <->
               In d ["docA"]
               /\ In d (map fst (coll_documents (mongo_db coll_AB_flushed))).
Proof.
  assert (H1 : snd (get_documents_not_in ["docA"] coll_AB_flushed)
               = Ok ["docB"]) by (rewrite coll_AB_flushed_eq; reflexivity).
  assert (H2 : snd (get_documents_not_in ["docB"] coll_AB_flushed)
               = Ok ["docA"]) by (rewrite coll_AB_flushed_eq; reflexivity).
  split; [exact H1 |]. split; [exact H2 |].
  exact (get_documents_not_in_twice ["docA"] coll_AB_flushed
           ["docB"] ["docA"] H1 H2).
Defined.

(** ** Reading back what a flush wrote *)

Lemma find_one_push_ne t term mdocs coll :
  t <> term ->
  find_one t (update_push_upsert term mdocs coll) = find_one t coll.
Proof.
  intro Hne. unfold find_one.
  induction coll as [| [t0 ds] coll IH]; simpl.
  - destruct (String.eqb term t) eqn:E; [| reflexivity].
    apply String.eqb_eq in E. congruence.
  - destruct (String.eqb t0 term) eqn:E; simpl.
    + apply String.eqb_eq in E. subst t0.
      destruct (String.eqb term t) eqn:E'; [| reflexivity].
      apply String.eqb_eq in E'. congruence.
    + destruct (String.eqb t0 t); [reflexivity | exact IH].
Qed.

Lemma find_one_push_eq term mdocs coll :
  find_one term (update_push_upsert term mdocs coll) =
  Some (term,
        match find_one term coll with Some ans => snd ans | None => [] end
        ++ mdocs).
Proof.
  unfold find_one. induction coll as [| [t0 ds] coll IH]; simpl.
  - now rewrite String.eqb_refl.
  - destruct (String.eqb t0 term) eqn:E; simpl; rewrite E.
    + apply String.eqb_eq in E. now subst.
    + exact IH.
Qed.

Lemma pushed_docs_none t items :
  existsb (fun item => String.eqb (fst item) t) items = false ->
  pushed_docs t items = [].
Proof.
  unfold pushed_docs. induction items as [| item items IH]; simpl.
  - reflexivity.
  - destruct (String.eqb (fst item) t); simpl; [discriminate | exact IH].
Qed.

Lemma find_one_push_terms t items db :
  find_one t
    (coll_invertedIndex (fold_left (fun db item => push_term item db) items db))
  = if existsb (fun item => String.eqb (fst item) t) items
    then Some (t, stored_docs db t ++ pushed_docs t items)
    else find_one t (coll_invertedIndex db).
Proof.
  revert db. induction items as [| item items IH]; intro db.
  - reflexivity.
  - cbn [fold_left existsb pushed_docs flat_map]. rewrite IH.
    fold (pushed_docs t items).
    assert (Hpush : coll_invertedIndex (push_term item db)
                    = update_push_upsert (fst item) (mongo_docs (snd item))
                        (coll_invertedIndex db)) by reflexivity.
    unfold stored_docs. rewrite Hpush. unfold Term in *.
    destruct (String.eqb (fst item) t) eqn:E.
    + apply String.eqb_eq in E. subst t. rewrite find_one_push_eq.
      cbn [snd orb].
      match goal with
      | |- context [existsb ?f items] => destruct (existsb f items) eqn:Ex
      end.
      * now rewrite app_assoc.
      * rewrite (pushed_docs_none _ _ Ex). now rewrite app_nil_r.
    + assert (Hne : t <> fst item)
        by (intros ->; rewrite String.eqb_refl in E; discriminate).
      rewrite (find_one_push_ne t (fst item)) by exact Hne.
      reflexivity.
Qed.

Lemma dict_get_existsb {V} t (items : list (string * V)) :
  existsb (fun item => String.eqb (fst item) t) items
  = match dict_get String.eqb t items with Some _ => true | None => false end.
Proof.
  induction items as [| [k v] items IH]; simpl; [reflexivity |].
  destruct (String.eqb k t); [reflexivity | exact IH].
Qed.

Lemma pushed_docs_absent t items :
  ~ In t (dict_keys items) -> pushed_docs t items = [].
Proof.
  unfold pushed_docs, dict_keys.
  induction items as [| [k v] items IH]; simpl; [reflexivity |].
  intro Hn. destruct (String.eqb k t) eqn:E.
  - apply String.eqb_eq in E. exfalso. apply Hn. now left.
  - apply IH. intro H. apply Hn. now right.
Qed.

Lemma pushed_docs_dict t items docs :
  NoDup (dict_keys items) ->
  dict_get String.eqb t items = Some docs ->
  pushed_docs t items = mongo_docs docs.
Proof.
  unfold pushed_docs.
  induction items as [| [k v] items IH]; simpl; [discriminate |].
  intros Hnd Hg. inversion Hnd as [| k' l' Hk Hnd']; subst.
  destruct (String.eqb k t) eqn:E.
  - injection Hg as <-. apply String.eqb_eq in E. subst k.
    fold (pushed_docs t items). rewrite pushed_docs_absent by exact Hk.
    apply app_nil_r.
  - now apply IH.
Qed.

Lemma dict_get_none_keys {V} t (items : list (string * V)) :
  dict_get String.eqb t items = None <-> ~ In t (dict_keys items).
Proof.
  unfold dict_keys. induction items as [| [k v] items IH]; simpl.
  - split; [intros _ [] | reflexivity].
  - destruct (String.eqb k t) eqn:E.
    + apply String.eqb_eq in E. split; [discriminate |].
      intro H. exfalso. apply H. now left.
    + rewrite IH. split.
      * intros H [-> | H']; [rewrite String.eqb_refl in E; discriminate | auto].
      * intros H H'. apply H. now right.
Qed.

Lemma dict_get_some_nonempty {K V} (eqb : K -> K -> bool) k (m : list (K * V)) v :
  dict_get eqb k m = Some v -> m <> [].
Proof. destruct m; [discriminate | discriminate]. Qed.

Lemma exec_flush_both self :
  index self <> [] -> documents self <> [] ->
  exec flush_to_mongo self = mkCollection [] [] (flushed_db self).
Proof.
  intros Hi Hd. unfold exec. rewrite flush_to_mongo_eq.
  apply truthy_true in Hi, Hd. now rewrite Hi, Hd.
Qed.

(** X4: after a flush of two non-empty tables, [get_documents_for_term] on
    a term of the posting table answers the postings its record held
    before, if it had one, followed by the postings of the table for that
    term, in the order of the table. *)
Theorem flush_then_get_documents_for_term term docs self :
  documents self <> [] ->
  NoDup (dict_keys (index self)) ->
  dict_get String.eqb term (index self) = Some docs ->
  get_documents_for_term term (exec flush_to_mongo self)
  = (exec flush_to_mongo self,
     Ok (stored_docs (mongo_db self) term ++ mongo_docs docs)).
Proof.
  intros Hd Hnd Hg.
  rewrite exec_flush_both
    by (assumption || eapply dict_get_some_nonempty; eauto).
  unfold get_documents_for_term, bind, get, flushed_db, insert_norms. simpl.
  rewrite find_one_push_terms, dict_get_existsb, Hg. simpl.
  now rewrite (pushed_docs_dict term (index self) docs).
Qed.

(** X5: a flush changes the answer of [get_documents_for_term] for no term
    that is outside the posting table; a term without a record that is not
    in the table is still unknown afterwards. *)
Theorem flush_keeps_other_terms term self :
  dict_get String.eqb term (index self) = None ->
  snd (get_documents_for_term term (exec flush_to_mongo self))
  = snd (get_documents_for_term term self).
Proof.
  intro Hg. unfold exec. rewrite flush_to_mongo_eq. simpl.
  unfold get_documents_for_term, bind, get. simpl.
  destruct (truthy (index self) && truthy (documents self)).
  - unfold flushed_db, insert_norms. simpl.
    rewrite find_one_push_terms, dict_get_existsb, Hg.
    now destruct (find_one term (coll_invertedIndex (mongo_db self))).
  - now destruct (find_one term (coll_invertedIndex (mongo_db self))).
Qed.

Lemma find_one_app {V} k (a b : list (string * V)) :
  find_one k (a ++ b)
  = match find_one k a with Some r => Some r | None => find_one k b end.
Proof.
  unfold find_one. induction a as [| r a IH]; simpl; [reflexivity |].
  destruct (String.eqb (fst r) k); [reflexivity | exact IH].
Qed.

Lemma find_one_mongo_docs {V} d (docs : list (Document * V)) :
  find_one (location d) (mongo_docs docs)
  = match dict_get Document_eqb d docs with
    | Some v => Some (location d, v)
    | None => None
    end.
Proof.
  unfold find_one, mongo_docs, Document_eqb.
  induction docs as [| [k v] docs IH]; simpl; [reflexivity |].
  destruct (String.eqb (location k) (location d)) eqn:E; [| exact IH].
  apply String.eqb_eq in E. now rewrite E.
Qed.

(** X6: after a flush of two non-empty tables, [get_document_L_d] on the
    location of a document of the norm table answers the norm of the
    record the store already had for that location, if any, and the norm
    of the table otherwise: a norm written earlier is never replaced. *)
Theorem flush_then_get_document_L_d d l_d self :
  index self <> [] ->
  dict_get Document_eqb d (documents self) = Some l_d ->
  get_document_L_d (location d) (exec flush_to_mongo self)
  = (exec flush_to_mongo self,
     Ok match find_one (location d) (coll_documents (mongo_db self)) with
        | Some ans => snd ans
        | None => l_d
        end).
Proof.
  intros Hi Hg.
  rewrite exec_flush_both
    by (assumption || eapply dict_get_some_nonempty; eauto).
  unfold get_document_L_d, bind, get, flushed_db, insert_norms, insert_many.
  simpl. rewrite push_terms_documents, find_one_app, find_one_mongo_docs, Hg.
  now destruct (find_one (location d) (coll_documents (mongo_db self))).
Qed.

(** X7: flushing twice is flushing once. *)
Theorem flush_to_mongo_idempotent self :
  flush_to_mongo (exec flush_to_mongo self)
  = (exec flush_to_mongo self, Ok tt).
Proof.
  unfold exec. rewrite !flush_to_mongo_eq. reflexivity.
Qed.

Lemma NoDup_index_coll_AB : NoDup (dict_keys (index coll_AB)).
Proof.
  rewrite coll_AB_eq. simpl.
  repeat constructor; simpl; intuition discriminate.
Qed.

Lemma flush_then_get_documents_for_term_witness :
  documents coll_AB <> []
  /\ NoDup (dict_keys (index coll_AB))
  /\ dict_get String.eqb "dog" (index coll_AB) = Some [(docA, 1); (docB, 1)]
  /\ get_documents_for_term "dog" (exec flush_to_mongo coll_AB)
     = (exec flush_to_mongo coll_AB,
        Ok (stored_docs (mongo_db coll_AB) "dog"
            ++ mongo_docs [(docA, 1); (docB, 1)])).
Proof.
  assert (Hd : documents coll_AB <> []) by (rewrite coll_AB_eq; discriminate).
  assert (Hg : dict_get String.eqb "dog" (index coll_AB)
               = Some [(docA, 1); (docB, 1)])
    by (rewrite coll_AB_eq; reflexivity).
  split; [exact Hd |]. split; [exact NoDup_index_coll_AB |].
  split; [exact Hg |].
  exact (flush_then_get_documents_for_term "dog" [(docA, 1); (docB, 1)]
           coll_AB Hd NoDup_index_coll_AB Hg).
Defined.

Lemma flush_keeps_other_terms_witness :
  dict_get String.eqb "bird" (index coll_AB) = None
  /\ snd (get_documents_for_term "bird" (exec flush_to_mongo coll_AB))
     = snd (get_documents_for_term "bird" coll_AB).
Proof.
  assert (Hg : dict_get String.eqb "bird" (index coll_AB) = None)
    by (rewrite coll_AB_eq; reflexivity).
  split; [exact Hg | exact (flush_keeps_other_terms "bird" coll_AB Hg)].
Defined.

Lemma flush_then_get_document_L_d_witness :
  index coll_AB <> []
  /\ dict_get Document_eqb docB (documents coll_AB) = Some norm_B
  /\ get_document_L_d (location docB) (exec flush_to_mongo coll_AB)
     = (exec flush_to_mongo coll_AB,
        Ok match find_one (location docB)
                   (coll_documents (mongo_db coll_AB)) with
           | Some ans => snd ans
           | None => norm_B
           end).
Proof.
  assert (Hi : index coll_AB <> []) by (rewrite coll_AB_eq; discriminate).
  assert (Hg : dict_get Document_eqb docB (documents coll_AB) = Some norm_B)
    by (rewrite coll_AB_eq; reflexivity).
  split; [exact Hi |]. split; [exact Hg |].
  exact (flush_then_get_document_L_d docB norm_B coll_AB Hi Hg).
Defined.

(** ** What a flush does to the record counts *)

Lemma length_push term mdocs coll :
  List.length (update_push_upsert term mdocs coll)
  = (List.length coll
     + match find_one term coll with Some _ => 0 | None => 1 end)%nat.
Proof.
  unfold find_one. induction coll as [| [t ds] coll IH]; simpl.
  - reflexivity.
  - destruct (String.eqb t term); simpl; [lia | now rewrite IH].
Qed.

Lemma length_push_terms items db :
  NoDup (dict_keys items) ->
  List.length
    (coll_invertedIndex (fold_left (fun db item => push_term item db) items db))
  = (List.length (coll_invertedIndex db)
     + List.length
         (filter
            (fun t => match find_one t (coll_invertedIndex db) with
                      | Some _ => false
                      | None => true
                      end)
            (dict_keys items)))%nat.
Proof.
  unfold dict_keys. revert db.
  induction items as [| item items IH]; intros db Hnd; simpl.
  - lia.
  - inversion Hnd as [| k l Hk Hnd']; subst.
    rewrite IH by exact Hnd'.
    assert (Hpush : coll_invertedIndex (push_term item db)
                    = update_push_upsert (fst item) (mongo_docs (snd item))
                        (coll_invertedIndex db)) by reflexivity.
    rewrite Hpush, length_push.
    rewrite (filter_ext_in _
               (fun t => match find_one t (coll_invertedIndex db) with
                         | Some _ => false
                         | None => true
                         end)).
    + destruct (find_one (fst item) (coll_invertedIndex db)); simpl; lia.
    + intros t Ht. rewrite find_one_push_ne; [reflexivity |].
      intros ->. contradiction.
Qed.

(** X8: a flush of two non-empty tables adds one record to the
    ['invertedIndex'] collection for each term of the posting table that had
    no record, and one record to the ['documents'] collection for each
    document of the norm table, whether or not the store already has a norm
    for it.  So afterwards [get_documents_count] has grown by the number of
    new terms and [get_index_count] by the number of flushed documents. *)
Theorem flush_to_mongo_counts self :
  index self <> [] -> documents self <> [] ->
  NoDup (dict_keys (index self)) ->
  snd (get_documents_count (exec flush_to_mongo self))
  = Ok (count (coll_invertedIndex (mongo_db self))
        + Z.of_nat (List.length (new_terms self)))
  /\ snd (get_index_count (exec flush_to_mongo self))
     = Ok (count (coll_documents (mongo_db self))
           + Z.of_nat (List.length (documents self))).
Proof.
  intros Hi Hd Hnd. rewrite exec_flush_both by assumption.
  unfold get_documents_count, get_index_count, bind, get, ret, count.
  unfold flushed_db, insert_norms, insert_many, new_terms. simpl. split.
  - rewrite length_push_terms by exact Hnd.
    now rewrite Nat2Z.inj_add.
  - rewrite push_terms_documents, length_app. unfold mongo_docs.
    now rewrite length_map, Nat2Z.inj_add.
Qed.

Lemma flush_to_mongo_counts_witness :
  index coll_AB <> [] /\ documents coll_AB <> []
  /\ NoDup (dict_keys (index coll_AB))
  /\ snd (get_documents_count (exec flush_to_mongo coll_AB))
     = Ok (count (coll_invertedIndex (mongo_db coll_AB))
           + Z.of_nat (List.length (new_terms coll_AB)))
  /\ snd (get_index_count (exec flush_to_mongo coll_AB))
     = Ok (count (coll_documents (mongo_db coll_AB))
           + Z.of_nat (List.length (documents coll_AB))).
Proof.
  assert (Hi : index coll_AB <> []) by (rewrite coll_AB_eq; discriminate).
  assert (Hd : documents coll_AB <> []) by (rewrite coll_AB_eq; discriminate).
  split; [exact Hi |]. split; [exact Hd |].
  split; [exact NoDup_index_coll_AB |].
  exact (flush_to_mongo_counts coll_AB Hi Hd NoDup_index_coll_AB).
Defined.

Lemma in_keys_push term mdocs coll k :
  In k (map fst (update_push_upsert term mdocs coll)) ->
  k = term \/ In k (map fst coll).
Proof.
  induction coll as [| [t ds] coll IH]; simpl.
  - intros [<- | []]. now left.
  - destruct (String.eqb t term); simpl.
    + intros [H | H]; right; [now left | now right].
    + intros [H | H]; [right; now left |].
      destruct (IH H) as [-> | H']; [now left | right; now right].
Qed.

Lemma NoDup_push term mdocs coll :
  NoDup (map fst coll) ->
  NoDup (map fst (update_push_upsert term mdocs coll)).
Proof.
  induction coll as [| [t ds] coll IH]; simpl; intro Hnd.
  - constructor; [intros [] | constructor].
  - inversion Hnd as [| k l Hk Hnd']; subst.
    destruct (String.eqb t term) eqn:E; simpl.
    + now constructor.
    + constructor; [| now apply IH].
      intro H. apply in_keys_push in H. destruct H as [-> | H]; [| contradiction].
      rewrite String.eqb_refl in E. discriminate.
Qed.

(** X9: a flush never gives a term a second record: when the terms of the
    records of the ['invertedIndex'] collection are pairwise distinct before
    a flush, they are so afterwards. *)
Theorem flush_keeps_one_record_per_term self :
  NoDup (map fst (coll_invertedIndex (mongo_db self))) ->
  NoDup (map fst (coll_invertedIndex (mongo_db (exec flush_to_mongo self)))).
Proof.
  intro Hnd. unfold exec. rewrite flush_to_mongo_eq. simpl.
  destruct (truthy (index self) && truthy (documents self)); [| exact Hnd].
  unfold flushed_db, insert_norms. simpl.
  generalize dependent (mongo_db self). generalize (index self).
  induction i as [| item items IH]; intros db Hnd; simpl.
  - exact Hnd.
  - apply IH. unfold push_term. simpl. now apply NoDup_push.
Qed.

Lemma flush_keeps_one_record_per_term_witness :
  NoDup (map fst (coll_invertedIndex (mongo_db coll_AB)))
  /\ NoDup (map fst (coll_invertedIndex
                       (mongo_db (exec flush_to_mongo coll_AB)))).
Proof.
  assert (H : NoDup (map fst (coll_invertedIndex (mongo_db coll_AB))))
    by (rewrite coll_AB_eq; constructor).
  split; [exact H | exact (flush_keeps_one_record_per_term coll_AB H)].
Defined.

Lemma built_stable_built tokenize self :
  built_stable tokenize self -> built self.
Proof.
  induction 1 as [| d self _ IH Hc | self _ IH].
  - apply built_init.
  - now apply built_read.
  - now apply built_flush.
Qed.

Lemma built_tables_linked self : built self -> tables_linked self.
Proof.
  unfold tables_linked.
  induction 1 as [| tokenize d self _ IH Hc | self _ IH].
  - intros d (term & docs & [] & _).
  - unfold exec.
    destruct (dict_contains Document_eqb d (documents self)) eqn:Hknown.
    + now rewrite read_document_known_eq.
    + rewrite read_document_fresh by assumption. simpl.
      intros d' Hp. apply posting_doc_index_add in Hp.
      destruct Hp as [[-> _] | Hp].
      * apply dict_set_keys_new. intros a b. apply Document_eqb_eq.
      * apply dict_set_keys_mono. now apply IH.
  - unfold exec. rewrite flush_to_mongo_eq. simpl.
    intros d (term & docs & [] & _).
Qed.

(** X10: a flush of a collection built from the empty store by
    [read_document], on counts that are at least 1, and [flush_to_mongo]
    loses no posting: each posting of the table is returned by
    [get_documents_for_term] afterwards.  This holds whatever the
    tokenization of each read. *)
Theorem built_flush_keeps_postings self term docs d cnt :
  built self ->
  In (term, docs) (index self) -> In (d, cnt) docs ->
  stored_posting (mongo_db (exec flush_to_mongo self)) term (location d) cnt.
Proof.
  intros Hb Hin Hd. apply built_tables_linked in Hb.
  assert (Hp : posting_doc (index self) d).
  { exists term, docs. split; [exact Hin |].
    unfold dict_keys. now apply (in_map fst) in Hd. }
  pose proof (Hb d Hp) as Hk.
  rewrite exec_flush_both.
  - unfold flushed_db, insert_norms, stored_posting. simpl.
    eapply push_terms_stores; eauto.
  - intro E. rewrite E in Hin. contradiction.
  - intro E. rewrite E in Hk. contradiction.
Qed.

Lemma built_coll_AB : built coll_AB.
Proof.
  unfold coll_AB. apply built_read; [apply built_read |]; try counts_ok.
  apply built_init.
Qed.

Lemma built_flush_keeps_postings_witness :
  built coll_AB
  /\ In ("cat", [(docA, 2)]) (index coll_AB)
  /\ In (docA, 2) [(docA, 2)]
  /\ stored_posting (mongo_db (exec flush_to_mongo coll_AB)) "cat"
       (location docA) 2.
Proof.
  assert (Hin : In ("cat", [(docA, 2)]) (index coll_AB))
    by (rewrite coll_AB_eq; simpl; now left).
  assert (Hd : In (docA, 2) [(docA, 2)]) by (simpl; now left).
  split; [exact built_coll_AB |]. split; [exact Hin |]. split; [exact Hd |].
  exact (built_flush_keeps_postings coll_AB "cat" [(docA, 2)]
           docA 2 built_coll_AB Hin Hd).
Defined.

(** ** More on ingestion *)

Lemma for_each_app {St X Acc} (body : Acc -> X -> M St Acc) a b acc s :
  for_each body (a ++ b) acc s
  = bind (for_each body a acc) (for_each body b) s.
Proof.
  revert acc s. induction a as [| x a IH]; intros acc s; simpl.
  - reflexivity.
  - unfold bind. destruct (body acc x s) as [s' [acc' | e]].
    + rewrite IH. reflexivity.
    + reflexivity.
Qed.

Lemma index_add_app d a b idx :
  index_add d (a ++ b) idx = index_add d b (index_add d a idx).
Proof. unfold index_add. apply fold_left_app. Qed.

Lemma add_document_step_bad d l_d t c self :
  c <= 0 ->
  add_document_step d l_d (t, c) self
  = (index_set t d c self, Raise ValueError).
Proof.
  intro Hc. unfold add_document_step, bind, modify, math_log.
  replace (c =? 1) with false by (symmetry; apply Z.eqb_neq; lia).
  destruct (Rle_dec (IZR c) 0) as [_ | Hn]; [reflexivity |].
  exfalso. apply Hn. apply (IZR_le c 0), Hc.
Qed.

Section IngestionMore.

Variable tokenize : Document -> list (Term * Z).

Lemma add_document_raises d pre t c post idx :
  tokenize d = pre ++ (t, c) :: post -> counts_ok pre -> c <= 0 ->
  add_document tokenize d idx
  = (index_add d (pre ++ [(t, c)]) idx, Raise ValueError).
Proof.
  intros Htok Hpre Hc. unfold add_document, bind at 1.
  rewrite Htok, for_each_app. unfold bind at 1.
  rewrite add_document_loop by exact Hpre.
  cbn [for_each]. unfold bind at 1. rewrite add_document_step_bad by exact Hc.
  rewrite index_add_app. reflexivity.
Qed.

(** X11: when the first count of a tokenization that is not at least 1 is
    reached, [add_document] raises [ValueError]; the postings of the terms
    up to and including that one are already in the index.  [read_document]
    on a document not yet in the norm table then raises as well, keeps the
    posted terms, and leaves the norm table and the store as they were. *)
Theorem ingestion_of_bad_count d pre t c post :
  tokenize d = pre ++ (t, c) :: post -> counts_ok pre -> c <= 0 ->
  (forall idx,
      add_document tokenize d idx
      = (index_add d (pre ++ [(t, c)]) idx, Raise ValueError))
  /\ (forall self,
         dict_contains Document_eqb d (documents self) = false ->
         read_document tokenize d self
         = (mkCollection (index_add d (pre ++ [(t, c)]) (index self))
              (documents self) (mongo_db self),
            Raise ValueError)).
Proof.
  intros Htok Hpre Hc. split.
  - intro idx. now apply (add_document_raises d pre t c post).
  - intros self Hnew. unfold read_document, bind at 1, get. rewrite Hnew.
    simpl. unfold bind, on_index.
    now rewrite (add_document_raises d pre t c post).
Qed.

End IngestionMore.

Section DictLookup.

Context {K V : Type} (eqb : K -> K -> bool).
Hypothesis eqb_spec : forall a b, eqb a b = true <-> a = b.

Lemma eqb_false_iff a b : eqb a b = false <-> a <> b.
Proof.
  destruct (eqb a b) eqn:E.
  - apply eqb_spec in E. split; [discriminate | congruence].
  - split; [| reflexivity]. intros _ H. apply eqb_spec in H. congruence.
Qed.

(** Lookup after assignment. *)
Lemma dict_get_set k (v : V) m k' :
  dict_get eqb k' (dict_set eqb k v m)
  = if eqb k k' then Some v else dict_get eqb k' m.
Proof.
  induction m as [| [k0 v0] m IH]; simpl.
  - reflexivity.
  - destruct (eqb k0 k) eqn:E0; simpl.
    + apply eqb_spec in E0. subst k0. now destruct (eqb k k').
    + rewrite IH. destruct (eqb k0 k') eqn:E1; [| reflexivity].
      apply eqb_spec in E1. subst k0.
      destruct (eqb k k') eqn:E2; [| reflexivity].
      apply eqb_spec in E2. subst k'.
      rewrite (proj2 (eqb_spec k k) eq_refl) in E0. discriminate.
Qed.

End DictLookup.

Lemma string_eqb_spec a b : String.eqb a b = true <-> a = b.
Proof. apply String.eqb_eq. Qed.

Lemma index_get_index_set term d cnt idx t' d' :
  index_get (index_set term d cnt idx) t' d'
  = if String.eqb term t' && Document_eqb d d' then Some cnt
    else index_get idx t' d'.
Proof.
  unfold index_get, index_set.
  rewrite (dict_get_set String.eqb string_eqb_spec).
  destruct (String.eqb term t') eqn:E; [| reflexivity].
  apply String.eqb_eq in E. subst t'. simpl.
  rewrite (dict_get_set Document_eqb Document_eqb_eq).
  destruct (Document_eqb d d'); [reflexivity |].
  now destruct (dict_get String.eqb term idx).
Qed.

Lemma index_get_add_other_doc d items idx t' d' :
  d' <> d -> index_get (index_add d items idx) t' d' = index_get idx t' d'.
Proof.
  intro Hne. unfold index_add. revert idx.
  induction items as [| [t c] items IH]; intro idx; simpl; [reflexivity |].
  rewrite IH, index_get_index_set.
  replace (Document_eqb d d') with false; [now rewrite andb_false_r |].
  symmetry. apply (eqb_false_iff Document_eqb Document_eqb_eq). congruence.
Qed.

Lemma index_get_add_other_term d items idx t' d' :
  ~ In t' (map fst items) ->
  index_get (index_add d items idx) t' d' = index_get idx t' d'.
Proof.
  unfold index_add. revert idx.
  induction items as [| [t c] items IH]; intros idx Hn; simpl; [reflexivity |].
  rewrite IH by (intro H; apply Hn; now right).
  rewrite index_get_index_set. simpl.
  replace (String.eqb t t') with false; [reflexivity |].
  symmetry. apply (eqb_false_iff String.eqb string_eqb_spec).
  intros ->. apply Hn. now left.
Qed.

Lemma index_get_add_same d items idx t c :
  NoDup (map fst items) -> In (t, c) items ->
  index_get (index_add d items idx) t d = Some c.
Proof.
  revert idx. induction items as [| [t0 c0] items IH]; intros idx Hnd Hin.
  - contradiction.
  - simpl in Hnd. inversion Hnd as [| k l Hk Hnd']; subst.
    change (index_add d ((t0, c0) :: items) idx)
      with (index_add d items (index_set t0 d c0 idx)).
    destruct Hin as [E | Hin].
    + injection E as -> ->.
      rewrite index_get_add_other_term by exact Hk.
      rewrite index_get_index_set, String.eqb_refl, Document_eqb_refl.
      reflexivity.
    + now apply IH.
Qed.

Section Lookup.

Variable tokenize : Document -> list (Term * Z).

(** X12: after [add_document] on a tokenization with distinct terms and
    counts that are at least 1, the index holds under each term of the
    document the count of that term for the document, and holds for every
    other document, and under every other term, what it held before. *)
Theorem add_document_posts_counts d idx :
  counts_ok (tokenize d) -> NoDup (map fst (tokenize d)) ->
  (forall t c, In (t, c) (tokenize d) ->
               index_get (exec (add_document tokenize d) idx) t d = Some c)
  /\ (forall t' d',
         d' <> d \/ ~ In t' (map fst (tokenize d)) ->
         index_get (exec (add_document tokenize d) idx) t' d'
         = index_get idx t' d').
Proof.
  intros Hc Hnd. unfold exec. rewrite add_document_ok by exact Hc. simpl.
  split.
  - intros t c Hin. now apply index_get_add_same.
  - intros t' d' [H | H].
    + now apply index_get_add_other_doc.
    + now apply index_get_add_other_term.
Qed.

(** [read_document] on a document that is not in the norm table, whatever
    [add_document] does. *)
Lemma read_document_unknown_eq d self :
  dict_contains Document_eqb d (documents self) = false ->
  read_document tokenize d self
  = match add_document tokenize d (index self) with
    | (idx, Ok l_d) =>
        (mkCollection idx (dict_set Document_eqb d l_d (documents self))
           (mongo_db self), Ok tt)
    | (idx, Raise e) =>
        (mkCollection idx (documents self) (mongo_db self), Raise e)
    end.
Proof.
  intro Hk. unfold read_document, bind at 1, get. rewrite Hk. simpl.
  unfold bind, on_index.
  now destruct (add_document tokenize d (index self)) as [idx [l | e]].
Qed.


(** X14: on counts that are at least 1 the norm that [add_document]
    returns is 0 exactly for a document without token, which leaves the
    index as it was; otherwise it is at least 1, and never below the
    square root of the number of distinct terms. *)
Theorem add_document_norm_bounds d idx :
  counts_ok (tokenize d) ->
  exists l_d,
    snd (add_document tokenize d idx) = Ok l_d
    /\ (l_d = 0%R <-> tokenize d = [])
    /\ (tokenize d = [] -> exec (add_document tokenize d) idx = idx)
    /\ (tokenize d <> [] -> (1 <= l_d)%R)
    /\ (sqrt (INR (List.length (tokenize d))) <= l_d)%R.
Proof.
  intro Hc. unfold exec. rewrite add_document_ok by exact Hc. simpl.
  exists (sqrt (weight_sum (tokenize d))). split; [reflexivity |].
  assert (Hge : tokenize d <> [] -> (1 <= sqrt (weight_sum (tokenize d)))%R).
  { intro Hne. rewrite <- sqrt_1 at 1. apply sqrt_le_1_alt.
    now apply weight_sum_ge_1. }
  split; [| split; [| split; [exact Hge |]]].
  - split.
    + intro H0. destruct (tokenize d) as [| item items] eqn:E; [reflexivity |].
      assert (1 <= sqrt (weight_sum (item :: items)))%R
        by (apply Hge; discriminate).
      lra.
    + intros ->. simpl. apply sqrt_0.
  - intros ->. reflexivity.
  - apply sqrt_le_1_alt. revert Hc. unfold counts_ok.
    generalize (tokenize d). intro items.
    induction items as [| [t c] items IH]; intro Hc.
    + simpl. lra.
    + cbn [List.length weight_sum fold_right snd]. fold (weight_sum items).
      rewrite S_INR.
      assert (1 <= weight c)%R by (apply weight_ge_1, (Hc t); now left).
      assert (INR (List.length items) <= weight_sum items)%R
        by (apply IH; intros; eapply Hc; right; eauto).
      lra.
Qed.

End Lookup.

Lemma ingestion_of_bad_count_witness :
  tokenize_bad docA = [("cat", 1)] ++ ("dog", 0) :: [("emu", 2)]
  /\ counts_ok [("cat", 1)]
  /\ 0 <= 0
  /\ add_document tokenize_bad docA []
     = (index_add docA ([("cat", 1)] ++ [("dog", 0)]) [], Raise ValueError)
  /\ read_document tokenize_bad docA (Collection_init empty_db)
     = (mkCollection (index_add docA ([("cat", 1)] ++ [("dog", 0)]) []) []
          empty_db,
        Raise ValueError).
Proof.
  assert (Htok : tokenize_bad docA = [("cat", 1)] ++ ("dog", 0) :: [("emu", 2)])
    by reflexivity.
  assert (Hpre : counts_ok [("cat", 1)]) by (unfold counts_ok; counts_ok).
  assert (Hc : 0 <= 0) by lia.
  destruct (ingestion_of_bad_count tokenize_bad docA [("cat", 1)] "dog" 0
              [("emu", 2)] Htok Hpre Hc) as [Hadd Hread].
  split; [exact Htok |]. split; [exact Hpre |]. split; [exact Hc |].
  split; [apply Hadd | apply (Hread (Collection_init empty_db)); reflexivity].
Defined.

Lemma counts_ok_docA : counts_ok (tokenize_ex docA).
Proof. unfold counts_ok. counts_ok. Qed.

Lemma add_document_posts_counts_witness :
  counts_ok (tokenize_ex docA)
  /\ NoDup (map fst (tokenize_ex docA))
  /\ index_get (exec (add_document tokenize_ex docA) []) "cat" docA = Some 2
  /\ index_get (exec (add_document tokenize_ex docA) [("dog", [(docB, 1)])])
       "dog" docB
     = index_get [("dog", [(docB, 1)])] "dog" docB.
Proof.
  assert (Hnd : NoDup (map fst (tokenize_ex docA)))
    by (simpl; repeat constructor; simpl; intuition discriminate).
  split; [exact counts_ok_docA |]. split; [exact Hnd |]. split.
  - destruct (add_document_posts_counts tokenize_ex docA [] counts_ok_docA Hnd)
      as [Hpost _].
    apply Hpost. simpl. now left.
  - destruct (add_document_posts_counts tokenize_ex docA [("dog", [(docB, 1)])]
                counts_ok_docA Hnd) as [_ Hframe].
    apply Hframe. left. discriminate.
Defined.


Lemma add_document_norm_bounds_witness :
  counts_ok (tokenize_ex docA)
  /\ exists l_d,
       snd (add_document tokenize_ex docA []) = Ok l_d
       /\ (l_d = 0%R <-> tokenize_ex docA = [])
       /\ (tokenize_ex docA = [] ->
           exec (add_document tokenize_ex docA) [] = [])
       /\ (tokenize_ex docA <> [] -> (1 <= l_d)%R)
       /\ (sqrt (INR (List.length (tokenize_ex docA))) <= l_d)%R.
Proof.
  split; [exact counts_ok_docA |].
  exact (add_document_norm_bounds tokenize_ex docA [] counts_ok_docA).
Defined.

(** ** Edge cases of [processquery_vector] *)

Lemma select_passed_nil above top : select_passed above top [] = [].
Proof.
  unfold select_passed, nlargest. simpl.
  destruct (Rlt_dec 0 above); destruct (top <? 0); try reflexivity;
    now rewrite firstn_nil.
Qed.

Section VectorEdges.

Variable textpreprocess : string -> list Term.

(** X15: a query without token returns the empty result on any store.  A
    query with a token raises [ZeroDivisionError] when the ['documents']
    collection has no record, as it is before the first flush over an empty
    store. *)
Theorem processquery_vector_edges q above top self :
  (textpreprocess q = [] ->
   processquery_vector textpreprocess q above top self = (self, Ok []))
  /\ (textpreprocess q <> [] -> coll_documents (mongo_db self) = [] ->
      processquery_vector textpreprocess q above top self
      = (self, Raise ZeroDivisionError)).
Proof.
  split.
  - unfold processquery_vector, bind at 1. intros ->.
    change (vector_scores [] self) with (self, @Ok (list (string * R)) []).
    unfold ret. now rewrite select_passed_nil.
  - unfold processquery_vector, vector_scores.
    intros Hne He. destruct (textpreprocess q) as [| t toks]; [congruence |].
    cbn [for_each]. unfold bind at 1, bind at 1, bind at 1.
    now rewrite score_term_no_documents.
Qed.

End VectorEdges.

Lemma processquery_vector_edges_witness :
  textpreprocess_ex "dog" <> []
  /\ coll_documents (mongo_db coll_AB) = []
  /\ processquery_vector textpreprocess_ex "dog" 0 (-1) coll_AB
     = (coll_AB, Raise ZeroDivisionError)
  /\ (fun _ : string => @nil Term) "dog" = []
  /\ processquery_vector (fun _ => []) "dog" 0 (-1) coll_AB = (coll_AB, Ok []).
Proof.
  assert (Hne : textpreprocess_ex "dog" <> []) by discriminate.
  assert (He : coll_documents (mongo_db coll_AB) = [])
    by (rewrite coll_AB_eq; reflexivity).
  split; [exact Hne |]. split; [exact He |]. split.
  - destruct (processquery_vector_edges textpreprocess_ex "dog" 0 (-1) coll_AB)
      as [_ H]. exact (H Hne He).
  - split; [reflexivity |].
    destruct (processquery_vector_edges (fun _ => []) "dog" 0 (-1) coll_AB)
      as [H _]. exact (H eq_refl).
Defined.

(** ** The scores in closed form *)

Lemma score_of_set k v S doc :
  score_of doc (dict_set String.eqb k v S)
  = if String.eqb k doc then v else score_of doc S.
Proof.
  unfold score_of. rewrite (dict_get_set String.eqb string_eqb_spec).
  now destruct (String.eqb k doc).
Qed.

Lemma score_of_add_scores idf_t entries S doc :
  score_of doc (add_scores idf_t entries S)
  = (score_of doc S + IZR (doc_count doc entries) * idf_t)%R.
Proof.
  unfold add_scores. revert S.
  induction entries as [| e entries IH]; intro S; simpl.
  - lra.
  - rewrite IH, score_of_set.
    destruct (String.eqb (fst e) doc) eqn:E.
    + apply String.eqb_eq in E. rewrite E. rewrite plus_IZR. lra.
    + lra.
Qed.

Lemma score_of_score_all self q_tokens S doc :
  score_of doc (score_all self q_tokens S)
  = (score_of doc S + IZR (query_count self q_tokens doc) * idf_value self)%R.
Proof.
  unfold score_all. revert S.
  induction q_tokens as [| t q_tokens IH]; intro S; simpl.
  - lra.
  - rewrite IH, score_of_add_scores, plus_IZR. lra.
Qed.

(** The first loop on known terms and a non-empty ['documents']
    collection. *)
Lemma score_loop_ok self q_tokens :
  coll_documents (mongo_db self) <> [] ->
  (forall t, In t q_tokens -> known_term self t) ->
  forall S,
    for_each score_term q_tokens S self
    = (self, Ok (score_all self q_tokens S)).
Proof.
  intros Hne. unfold score_all, known_term.
  induction q_tokens as [| t q_tokens IH]; intros Hk S; cbn [for_each fold_left].
  - reflexivity.
  - unfold bind.
    destruct (find_one t (coll_invertedIndex (mongo_db self))) as [ans |] eqn:Hf.
    + rewrite (score_term_known _ _ _ ans) by assumption.
      unfold stored_docs at 2. rewrite Hf.
      apply IH. intros; apply Hk; now right.
    + exfalso. apply (Hk t); [now left | exact Hf].
Qed.

(** X16: when the ['documents'] collection is not empty and every token of
    the query has a record, the first loop of [processquery_vector]
    returns, and the score it gives a location is the idf weight times the
    number of occurrences, in the postings of the query's tokens, recorded
    for that location; a token repeated in the query counts each time. *)
Theorem score_loop_closed_form self q_tokens :
  coll_documents (mongo_db self) <> [] ->
  (forall t, In t q_tokens -> known_term self t) ->
  exists S,
    for_each score_term q_tokens [] self = (self, Ok S)
    /\ forall doc,
         score_of doc S
         = (IZR (query_count self q_tokens doc) * idf_value self)%R.
Proof.
  intros Hne Hk. exists (score_all self q_tokens []).
  split; [now apply score_loop_ok |].
  intro doc. rewrite score_of_score_all. unfold score_of. simpl. lra.
Qed.

Lemma known_dog : forall t, In t ["dog"; "dog"] -> known_term coll_AB_flushed t.
Proof.
  intros t [<- | [<- | []]]; unfold known_term; rewrite coll_AB_flushed_eq;
    discriminate.
Qed.

Lemma score_loop_closed_form_witness :
  coll_documents (mongo_db coll_AB_flushed) <> []
  /\ (forall t, In t ["dog"; "dog"] -> known_term coll_AB_flushed t)
  /\ query_count coll_AB_flushed ["dog"; "dog"] "docB" = 2
  /\ exists S,
       for_each score_term ["dog"; "dog"] [] coll_AB_flushed
       = (coll_AB_flushed, Ok S)
       /\ forall doc,
            score_of doc S
            = (IZR (query_count coll_AB_flushed ["dog"; "dog"] doc)
               * idf_value coll_AB_flushed)%R.
Proof.
  assert (Hne : coll_documents (mongo_db coll_AB_flushed) <> [])
    by (rewrite coll_AB_flushed_eq; discriminate).
  split; [exact Hne |]. split; [exact known_dog |].
  split; [rewrite coll_AB_flushed_eq; reflexivity |].
  exact (score_loop_closed_form coll_AB_flushed ["dog"; "dog"] Hne known_dog).
Defined.

(** ** More invariants of built collections *)

Section DictKeys.

Context {K V : Type} (eqb : K -> K -> bool).
Hypothesis eqb_spec : forall a b, eqb a b = true <-> a = b.

Lemma dict_set_nonempty k (v : V) m : dict_set eqb k v m <> [].
Proof.
  destruct m as [| [k0 v0] m]; simpl; [discriminate |].
  destruct (eqb k0 k); discriminate.
Qed.

Lemma dict_set_keys_same k (v : V) m :
  In k (dict_keys m) -> dict_keys (dict_set eqb k v m) = dict_keys m.
Proof.
  unfold dict_keys. induction m as [| [k0 v0] m IH]; simpl; [contradiction |].
  intro Hin. destruct (eqb k0 k) eqn:E; simpl; [reflexivity |].
  f_equal. apply IH. destruct Hin as [-> | Hin]; [| exact Hin].
  rewrite (proj2 (eqb_spec k k) eq_refl) in E. discriminate.
Qed.

Lemma dict_set_NoDup k (v : V) m :
  NoDup (dict_keys m) -> NoDup (dict_keys (dict_set eqb k v m)).
Proof.
  induction m as [| [k0 v0] m IH]; simpl; intro Hnd.
  - constructor; [intros [] | constructor].
  - inversion Hnd as [| k' l Hk Hnd']; subst.
    destruct (eqb k0 k) eqn:E; simpl.
    + now constructor.
    + constructor; [| now apply IH].
      intro H. apply (dict_set_keys eqb) in H.
      destruct H as [-> | H]; [| contradiction].
      rewrite (proj2 (eqb_spec k k) eq_refl) in E. discriminate.
Qed.

End DictKeys.

Lemma index_set_keys_mono term d cnt idx t :
  In t (dict_keys idx) -> In t (dict_keys (index_set term d cnt idx)).
Proof. unfold index_set. apply dict_set_keys_mono. Qed.

Lemma index_set_keys_new term d cnt idx :
  In term (dict_keys (index_set term d cnt idx)).
Proof.
  unfold index_set. apply dict_set_keys_new.
  intros a b. apply String.eqb_eq.
Qed.

Lemma index_add_keys_mono d items idx t :
  In t (dict_keys idx) -> In t (dict_keys (index_add d items idx)).
Proof.
  unfold index_add. revert idx.
  induction items as [| [t0 c0] items IH]; intros idx H; simpl; [exact H |].
  apply IH. now apply index_set_keys_mono.
Qed.

Lemma index_add_keys_new d items idx t :
  In t (map fst items) -> In t (dict_keys (index_add d items idx)).
Proof.
  revert idx. induction items as [| [t0 c0] items IH]; intros idx H.
  - contradiction.
  - change (index_add d ((t0, c0) :: items) idx)
      with (index_add d items (index_set t0 d c0 idx)).
    destruct H as [<- | H]; [| now apply IH].
    apply index_add_keys_mono, index_set_keys_new.
Qed.

Section BuiltMore.

Variable tokenize : Document -> list (Term * Z).

Lemma ingested_read d self :
  ingested tokenize self -> counts_ok (tokenize d) ->
  ingested tokenize (exec (read_document tokenize d) self).
Proof.
  intros [Ht Hterms Hs] Hc. unfold exec.
  destruct (dict_contains Document_eqb d (documents self)) eqn:Hknown.
  - rewrite read_document_known_eq by exact Hknown. now constructor.
  - rewrite read_document_fresh by assumption. simpl.
    constructor; simpl; [| | exact Hs].
    + intro E. exfalso. now apply (dict_set_nonempty Document_eqb) in E.
    + intros d' t Hd' Hin. apply dict_set_keys in Hd'.
      destruct Hd' as [-> | Hd'].
      * now apply index_add_keys_new.
      * apply index_add_keys_mono. now apply (Hterms d').
Qed.

Lemma ingested_flush self :
  ingested tokenize self -> ingested tokenize (exec flush_to_mongo self).
Proof.
  intros [Ht Hterms Hs]. unfold exec. rewrite flush_to_mongo_eq. simpl.
  constructor; simpl; [reflexivity | contradiction |].
  destruct (truthy (index self)) eqn:Ei; simpl; [| exact Hs].
  destruct (truthy (documents self)) eqn:Ed; simpl; [| exact Hs].
  intros _. unfold insert_many. rewrite push_terms_documents.
  apply truthy_true in Ed. destruct (documents self); [congruence |].
  intro E. apply app_eq_nil in E. destruct E as [_ E]. discriminate.
Qed.

Lemma built_ingested self : built_stable tokenize self -> ingested tokenize self.
Proof.
  induction 1 as [| d self _ IH Hc | self _ IH].
  - constructor; simpl; [reflexivity | contradiction | congruence].
  - now apply ingested_read.
  - now apply ingested_flush.
Qed.

(** The first loop on a collection of [built_stable] whose store knows every term of
    the query. *)
Lemma score_loop_ok_built self q_tokens :
  built_stable tokenize self ->
  (forall t, In t q_tokens -> known_term self t) ->
  for_each score_term q_tokens [] self
  = (self, Ok (score_all self q_tokens [])).
Proof.
  intros Hb Hk. destruct q_tokens as [| t q_tokens]; [reflexivity |].
  apply score_loop_ok; [| exact Hk].
  apply built_ingested in Hb. destruct Hb as [_ _ Hs]. apply Hs.
  assert (Hkt : known_term self t) by (apply Hk; now left).
  unfold known_term, find_one in Hkt. intro E. rewrite E in Hkt. now apply Hkt.
Qed.

End BuiltMore.

Section VectorBuilt.

Variable tokenize : Document -> list (Term * Z).
Variable textpreprocess : string -> list Term.

Lemma processquery_vector_raises_on_unknown q above top self t :
  In t (textpreprocess q) ->
  find_one t (coll_invertedIndex (mongo_db self)) = None ->
  exists e, processquery_vector textpreprocess q above top self
            = (self, Raise e).
Proof.
  intros Hin Hunk. unfold processquery_vector, vector_scores.
  destruct (coll_documents (mongo_db self)) as [| r docs] eqn:Hd.
  - destruct (textpreprocess q) as [| t0 toks]; [contradiction |].
    exists ZeroDivisionError.
    cbn [for_each]. unfold bind at 1, bind at 1, bind at 1.
    now rewrite score_term_no_documents.
  - assert (Hne : coll_documents (mongo_db self) <> [])
      by (rewrite Hd; discriminate).
    destruct (score_loop_unknown self (textpreprocess q) Hne
                (ex_intro _ t (conj Hin Hunk)) [])
      as (pre & t' & post & _ & _ & _ & Hrun).
    exists (UnknownTerm t'). unfold bind at 1, bind at 1. now rewrite Hrun.
Qed.

(** X17: on a collection built from the empty store by [read_document],
    on counts that are at least 1, and [flush_to_mongo], where a location
    is tokenized the same way each time it is read, a vector query returns
    a result exactly when each of its tokens has a record in the store; it
    raises otherwise. *)
Theorem vector_query_returns_iff_known q above top self :
  built_stable tokenize self ->
  ((forall t, In t (textpreprocess q) -> known_term self t) <->
   exists r, processquery_vector textpreprocess q above top self
             = (self, Ok r)).
Proof.
  intro Hb. split.
  - intro Hk.
    pose proof (score_loop_ok_built tokenize self (textpreprocess q) Hb Hk)
      as Hrun.
    assert (HS : snd (for_each score_term (textpreprocess q) [] self)
                 = Ok (score_all self (textpreprocess q) []))
      by (now rewrite Hrun).
    eexists. unfold processquery_vector, bind.
    rewrite (vector_scores_built tokenize self _ _ Hb HS). reflexivity.
  - intros [r Hr] t Hin. unfold known_term. intro Hunk.
    destruct (processquery_vector_raises_on_unknown q above top self t Hin Hunk)
      as [e He].
    rewrite He in Hr. discriminate.
Qed.

End VectorBuilt.

Lemma vector_query_returns_iff_known_witness :
  built_stable tokenize_ex coll_AB_flushed
  /\ ((forall t, In t (textpreprocess_ex "dog") ->
                 known_term coll_AB_flushed t) <->
      exists r, processquery_vector textpreprocess_ex "dog" 0 (-1)
                  coll_AB_flushed
                = (coll_AB_flushed, Ok r)).
Proof.
  split; [exact built_coll_AB_flushed |].
  exact (vector_query_returns_iff_known tokenize_ex textpreprocess_ex "dog"
           0 (-1) coll_AB_flushed built_coll_AB_flushed).
Defined.

(** ** The normalised scores in closed form *)

Lemma add_scores_keys_back idf_t entries S d :
  In d (dict_keys S) \/ In d (map fst entries) ->
  In d (dict_keys (add_scores idf_t entries S)).
Proof.
  unfold add_scores. revert S.
  induction entries as [| e entries IH]; intros S H; simpl.
  - destruct H as [H | []]. exact H.
  - apply IH. destruct H as [H | [<- | H]].
    + left. now apply dict_set_keys_mono.
    + left. apply dict_set_keys_new. intros a b. apply String.eqb_eq.
    + now right.
Qed.

Lemma add_scores_NoDup idf_t entries S :
  NoDup (dict_keys S) -> NoDup (dict_keys (add_scores idf_t entries S)).
Proof.
  unfold add_scores. revert S.
  induction entries as [| e entries IH]; intros S H; simpl; [exact H |].
  apply IH. now apply (dict_set_NoDup String.eqb string_eqb_spec).
Qed.

Lemma score_all_NoDup self q_tokens S :
  NoDup (dict_keys S) -> NoDup (dict_keys (score_all self q_tokens S)).
Proof.
  unfold score_all. revert S.
  induction q_tokens as [| t q_tokens IH]; intros S H; simpl; [exact H |].
  apply IH. now apply add_scores_NoDup.
Qed.

Lemma score_all_keys self q_tokens S doc :
  In doc (dict_keys (score_all self q_tokens S)) <->
  In doc (dict_keys S)
  \/ exists t, In t q_tokens
               /\ In doc (map fst (stored_docs (mongo_db self) t)).
Proof.
  unfold score_all. revert S.
  induction q_tokens as [| t q_tokens IH]; intro S; simpl.
  - split; [now left | intros [H | (t & [] & _)]; exact H].
  - rewrite IH. split.
    + intros [H | (t' & Hin & Hd)].
      * apply add_scores_keys in H. destruct H as [H | H]; [now left |].
        right. exists t. split; [now left | exact H].
      * right. exists t'. split; [now right | exact Hd].
    + intros [H | (t' & [<- | Hin] & Hd)].
      * left. apply add_scores_keys_back. now left.
      * left. apply add_scores_keys_back. now right.
      * right. now exists t'.
Qed.

Lemma normalize_all_keys self keys S :
  (forall k, In k keys -> In k (dict_keys S)) ->
  dict_keys (normalize_all self keys S) = dict_keys S.
Proof.
  unfold normalize_all. revert S.
  induction keys as [| k keys IH]; intros S H; simpl; [reflexivity |].
  assert (Hk : dict_keys (dict_set String.eqb k
                            (score_of k S / norm_of self k)%R S)
               = dict_keys S).
  { apply (dict_set_keys_same String.eqb string_eqb_spec). apply H. now left. }
  rewrite IH; [exact Hk |].
  intros k' Hk'. rewrite Hk. apply H. now right.
Qed.

Lemma normalize_all_other self keys S doc :
  ~ In doc keys -> score_of doc (normalize_all self keys S) = score_of doc S.
Proof.
  unfold normalize_all. revert S.
  induction keys as [| k keys IH]; intros S H; simpl; [reflexivity |].
  rewrite IH by (intro H'; apply H; now right).
  rewrite score_of_set.
  destruct (String.eqb k doc) eqn:E; [| reflexivity].
  apply String.eqb_eq in E. exfalso. apply H. now left.
Qed.

Lemma normalize_all_score self keys S doc :
  NoDup keys -> In doc keys ->
  score_of doc (normalize_all self keys S)
  = (score_of doc S / norm_of self doc)%R.
Proof.
  revert S. induction keys as [| k keys IH]; intros S Hnd Hin.
  - contradiction.
  - inversion Hnd as [| k' l Hk Hnd']; subst.
    change (normalize_all self (k :: keys) S)
      with (normalize_all self keys
              (dict_set String.eqb k (score_of k S / norm_of self k)%R S)).
    destruct Hin as [-> | Hin].
    + rewrite normalize_all_other by exact Hk.
      now rewrite score_of_set, String.eqb_refl.
    + rewrite IH by assumption. rewrite score_of_set.
      destruct (String.eqb k doc) eqn:E; [| reflexivity].
      apply String.eqb_eq in E. subst k. contradiction.
Qed.

Section ClosedForm.

Variable tokenize : Document -> list (Term * Z).

(** X18: on a collection built from the empty store by [read_document],
    on counts that are at least 1, and [flush_to_mongo], where a location
    is tokenized the same way each time it is read, and whose store has a
    record for each token of the query, the two loops of
    [processquery_vector] return scores with
    one entry for each location that has a posting under a token of the
    query, and no other; the score of such a location is the idf weight
    times its occurrences of the query's tokens, divided by its stored
    norm, which is at least 1. *)
Theorem vector_scores_closed_form self q_tokens :
  built_stable tokenize self ->
  (forall t, In t q_tokens -> known_term self t) ->
  exists S,
    vector_scores q_tokens self = (self, Ok S)
    /\ NoDup (dict_keys S)
    /\ (forall doc,
           In doc (dict_keys S) <->
           exists t, In t q_tokens
                     /\ In doc (map fst (stored_docs (mongo_db self) t)))
    /\ (forall doc,
           In doc (dict_keys S) ->
           score_of doc S
           = (IZR (query_count self q_tokens doc) * idf_value self
              / norm_of self doc)%R
           /\ (1 <= norm_of self doc)%R).
Proof.
  intros Hb Hk.
  pose proof (score_loop_ok_built tokenize self q_tokens Hb Hk) as Hrun.
  assert (HS : snd (for_each score_term q_tokens [] self)
               = Ok (score_all self q_tokens [])) by (now rewrite Hrun).
  set (S0 := score_all self q_tokens []) in *.
  assert (Hnd : NoDup (dict_keys S0)) by (apply score_all_NoDup; constructor).
  assert (Hkeys : dict_keys (normalize_all self (dict_keys S0) S0)
                  = dict_keys S0) by (now apply normalize_all_keys).
  exists (normalize_all self (dict_keys S0) S0).
  split; [exact (vector_scores_built tokenize self _ _ Hb HS) |].
  rewrite Hkeys. split; [exact Hnd |]. split.
  - intro doc. unfold S0. rewrite score_all_keys. simpl. tauto.
  - intros doc Hin. split.
    + rewrite normalize_all_score by assumption.
      unfold S0. rewrite score_of_score_all. unfold score_of. simpl.
      now rewrite Rplus_0_l.
    + destruct (scored_docs_have_norm tokenize self q_tokens S0
                  (built_consistent tokenize self Hb) HS doc Hin)
        as (ans & Hf & Hge).
      unfold norm_of. now rewrite Hf.
Qed.

End ClosedForm.

Lemma vector_scores_closed_form_witness :
  built_stable tokenize_ex coll_AB_flushed
  /\ (forall t, In t ["dog"; "dog"] -> known_term coll_AB_flushed t)
  /\ exists S,
       vector_scores ["dog"; "dog"] coll_AB_flushed = (coll_AB_flushed, Ok S)
       /\ NoDup (dict_keys S)
       /\ (forall doc,
              In doc (dict_keys S) <->
              exists t, In t ["dog"; "dog"]
                        /\ In doc (map fst (stored_docs
                                              (mongo_db coll_AB_flushed) t)))
       /\ (forall doc,
              In doc (dict_keys S) ->
              score_of doc S
              = (IZR (query_count coll_AB_flushed ["dog"; "dog"] doc)
                 * idf_value coll_AB_flushed
                 / norm_of coll_AB_flushed doc)%R
              /\ (1 <= norm_of coll_AB_flushed doc)%R).
Proof.
  split; [exact built_coll_AB_flushed |]. split; [exact known_dog |].
  exact (vector_scores_closed_form tokenize_ex coll_AB_flushed ["dog"; "dog"]
           built_coll_AB_flushed known_dog).
Defined.

(** ** Errors of the normalisation loop *)

Lemma normalize_doc_unknown S d self :
  find_one d (coll_documents (mongo_db self)) = None ->
  normalize_doc S d self = (self, Raise (UnknownDocument d)).
Proof.
  intro Hf. unfold normalize_doc, bind, get_document_L_d, bind, get.
  now rewrite Hf.
Qed.

Lemma normalize_doc_zero S d self ans :
  find_one d (coll_documents (mongo_db self)) = Some ans -> snd ans = 0%R ->
  normalize_doc S d self = (self, Raise ZeroDivisionError).
Proof.
  intros Hf Hz. unfold normalize_doc, bind at 1, get_document_L_d, bind at 1, get.
  rewrite Hf. unfold ret at 1, bind at 1, truediv. rewrite Hz.
  destruct (Req_dec_T 0 0) as [_ | N]; [reflexivity | congruence].
Qed.

Section NormalisationErrors.

Variable textpreprocess : string -> list Term.

(** X19: let the first loop of [processquery_vector] return the scores
    [S], and let [d] be the first scored location whose norm record is
    missing or holds 0.  The query raises [UnknownDocument d] when the
    record is missing and [ZeroDivisionError] when its norm is 0. *)
Theorem processquery_vector_bad_norm q above top self S pre d post :
  snd (for_each score_term (textpreprocess q) [] self) = Ok S ->
  dict_keys S = pre ++ d :: post ->
  (forall d', In d' pre ->
              exists ans, find_one d' (coll_documents (mongo_db self))
                          = Some ans /\ snd ans <> 0%R) ->
  (find_one d (coll_documents (mongo_db self)) = None ->
   processquery_vector textpreprocess q above top self
   = (self, Raise (UnknownDocument d)))
  /\ (forall ans,
         find_one d (coll_documents (mongo_db self)) = Some ans ->
         snd ans = 0%R ->
         processquery_vector textpreprocess q above top self
         = (self, Raise ZeroDivisionError)).
Proof.
  intros HS Hkeys Hpre.
  pose proof (readonly_run _ self
                (readonly_for_each score_term (textpreprocess q)
                   readonly_score_term [])) as Hrun.
  rewrite HS in Hrun.
  assert (Hloop : forall e,
             normalize_doc (normalize_all self pre S) d self = (self, Raise e) ->
             processquery_vector textpreprocess q above top self
             = (self, Raise e)).
  { intros e He. unfold processquery_vector, vector_scores.
    unfold bind at 1, bind at 1. rewrite Hrun, Hkeys, for_each_app.
    unfold bind at 1. rewrite (normalize_loop_ok self pre Hpre).
    cbn [for_each]. unfold bind at 1. now rewrite He. }
  split.
  - intro Hf. apply Hloop. now apply normalize_doc_unknown.
  - intros ans Hf Hz. apply Hloop. now apply (normalize_doc_zero _ _ _ ans).
Qed.

End NormalisationErrors.

Lemma score_loop_orphan :
  for_each score_term (textpreprocess_ex "cat") [] coll_orphan
  = (coll_orphan,
     Ok (add_scores (idf_value coll_orphan) [("docA", 1)] [])).
Proof.
  unfold textpreprocess_ex. cbn [for_each]. unfold bind.
  rewrite (score_term_known _ _ _ ("cat", [("docA", 1)]));
    [reflexivity | discriminate | reflexivity].
Qed.

Lemma processquery_vector_bad_norm_witness :
  snd (for_each score_term (textpreprocess_ex "cat") [] coll_orphan)
  = Ok (add_scores (idf_value coll_orphan) [("docA", 1)] [])
  /\ dict_keys (add_scores (idf_value coll_orphan) [("docA", 1)] [])
     = [] ++ "docA" :: []
  /\ find_one "docA" (coll_documents (mongo_db coll_orphan)) = None
  /\ processquery_vector textpreprocess_ex "cat" 0 (-1) coll_orphan
     = (coll_orphan, Raise (UnknownDocument "docA")).
Proof.
  assert (HS : snd (for_each score_term (textpreprocess_ex "cat") []
                      coll_orphan)
               = Ok (add_scores (idf_value coll_orphan) [("docA", 1)] []))
    by (now rewrite score_loop_orphan).
  assert (Hk : dict_keys (add_scores (idf_value coll_orphan) [("docA", 1)] [])
               = [] ++ "docA" :: []) by reflexivity.
  assert (Hf : find_one "docA" (coll_documents (mongo_db coll_orphan)) = None)
    by reflexivity.
  split; [exact HS |]. split; [exact Hk |]. split; [exact Hf |].
  destruct (processquery_vector_bad_norm textpreprocess_ex "cat" 0 (-1)
              coll_orphan _ [] "docA" [] HS Hk) as [Hunk _].
  - intros d' [].
  - exact (Hunk Hf).
Defined.

(** ** The order of the ranked result *)

Lemma in_firstn {A} (l : list A) n x : In x (firstn n l) -> In x l.
Proof.
  revert n. induction l as [| y l IH]; intros n H.
  - rewrite firstn_nil in H. contradiction.
  - destruct n as [| n]; [contradiction |].
    destruct H as [<- | H]; [now left | right; now apply (IH n)].
Qed.

Lemma firstn_sorted {A} (l : list (A * R)) n :
  StronglySorted score_ge l -> StronglySorted score_ge (firstn n l).
Proof.
  revert n. induction l as [| x l IH]; intros n Hs.
  - rewrite firstn_nil. constructor.
  - destruct n as [| n]; [constructor |].
    inversion Hs as [| x' l' Hl Hx]; subst. simpl.
    constructor; [now apply IH |].
    rewrite Forall_forall in *. intros y Hy. apply Hx.
    now apply (in_firstn l n).
Qed.

Lemma insert_desc_ties {A} v (x : A * R) l :
  filter (has_score v) (insert_desc x l) = filter (has_score v) (x :: l).
Proof.
  induction l as [| y l IH]; [reflexivity |].
  cbn [insert_desc]. destruct (Rle_dec (snd y) (snd x)) as [Hle | Hgt].
  - reflexivity.
  - cbn [filter] in *. rewrite IH. unfold has_score.
    destruct (Req_dec_T (snd x) v) as [Ex | Nx];
      destruct (Req_dec_T (snd y) v) as [Ey | Ny]; try reflexivity.
    exfalso. apply Hgt. rewrite Ex, Ey. apply Rle_refl.
Qed.

Lemma sorted_desc_ties {A} v (l : list (A * R)) :
  filter (has_score v) (sorted_desc l) = filter (has_score v) l.
Proof.
  induction l as [| x l IH]; [reflexivity |].
  cbn [sorted_desc fold_right]. fold (sorted_desc l).
  rewrite insert_desc_ties. cbn [filter]. now rewrite IH.
Qed.

Section Ranking.

Variable textpreprocess : string -> list Term.

(** X20: with [top >= 0] the result of [processquery_vector] is ordered by
    decreasing score, and the pairs that share a score come in the order in
    which the scores hold them, the first ones being kept when the cut
    falls among them.  When [top] is at least the number of pairs that pass
    the floor, the result is a reordering of all of them. *)
Theorem processquery_vector_ranking q above top self S :
  snd (vector_scores (textpreprocess q) self) = Ok S ->
  0 <= top ->
  exists r,
    processquery_vector textpreprocess q above top self = (self, Ok r)
    /\ StronglySorted score_ge r
    /\ (forall v, exists rest,
           filter (has_score v) (select_passed above (-1) S)
           = filter (has_score v) r ++ rest)
    /\ (Z.of_nat (List.length (select_passed above (-1) S)) <= top ->
        Permutation r (select_passed above (-1) S)).
Proof.
  intros HS Htop.
  pose proof (readonly_run _ self (readonly_vector_scores (textpreprocess q)))
    as Hrun.
  rewrite HS in Hrun.
  exists (select_passed above top S).
  unfold processquery_vector, bind. rewrite Hrun.
  split; [reflexivity |].
  rewrite (select_passed_cut above top S Htop).
  set (P := select_passed above (-1) S). unfold nlargest.
  split; [apply firstn_sorted, sorted_desc_sorted |]. split.
  - intro v. exists (filter (has_score v) (skipn (Z.to_nat top) (sorted_desc P))).
    rewrite <- filter_app, firstn_skipn. symmetry. apply sorted_desc_ties.
  - intro Hlen. rewrite firstn_all2; [apply sorted_desc_perm |].
    rewrite (Permutation_length (sorted_desc_perm P)). lia.
Qed.

End Ranking.

Lemma processquery_vector_ranking_witness :
  snd (vector_scores (textpreprocess_ex "dog") coll_AB_flushed)
  = Ok scores_dog_normalised
  /\ 0 <= 1
  /\ exists r,
       processquery_vector textpreprocess_ex "dog" 0 1 coll_AB_flushed
       = (coll_AB_flushed, Ok r)
       /\ StronglySorted score_ge r.
Proof.
  assert (Hs : snd (vector_scores (textpreprocess_ex "dog") coll_AB_flushed)
               = Ok scores_dog_normalised)
    by (now rewrite vector_scores_dog).
  assert (Htop : 0 <= 1) by lia.
  split; [exact Hs |]. split; [exact Htop |].
  destruct (processquery_vector_ranking textpreprocess_ex "dog" 0 1
              coll_AB_flushed scores_dog_normalised Hs Htop)
    as (r & Hr & Hsorted & _).
  exists r. split; [exact Hr | exact Hsorted].
Defined.

(** ** The boolean engine never raises on a parsed query *)

Lemma eval_bexpr_returns {St} (td : Term -> M St (list pyobj))
  (rd : list pyobj -> M St (list pyobj)) :
  (forall t s, exists r, td t s = (s, Ok r)) ->
  (forall x s, exists r, rd x s = (s, Ok r)) ->
  forall e s, exists r, eval_bexpr td rd e s = (s, Ok r).
Proof.
  intros Htd Hrd e s.
  induction e as [t | a IHa b IHb | a IHa b IHb | a IHa]; simpl.
  - apply Htd.
  - destruct IHa as [x Hx]. destruct IHb as [y Hy].
    unfold bind. rewrite Hx, Hy. eexists. reflexivity.
  - destruct IHa as [x Hx]. destruct IHb as [y Hy].
    unfold bind. rewrite Hx, Hy. eexists. reflexivity.
  - destruct IHa as [x Hx]. unfold bind. rewrite Hx. apply Hrd.
Qed.

Section BooleanTotal.

Variable textpreprocess : string -> list Term.
Variable parse_query : string -> option bexpr.

(** X21: the two primitives handed to the boolean evaluator never raise
    and change nothing: [term_documents] answers the empty set for a term
    without a record, [rest_documents] answers from the norm table.  So a
    boolean query raises only when the parser rejects it, and returns on
    every parsed expression. *)
Theorem processquery_boolean_returns q self :
  (forall t s, exists r, term_documents t s = (s, Ok r))
  /\ (forall t s,
         find_one t (coll_invertedIndex (mongo_db s)) = None ->
         term_documents t s = (s, Ok []))
  /\ (forall x s, exists r, rest_documents x s = (s, Ok r))
  /\ (parse_query (String.concat " " (textpreprocess q)) = None ->
      processquery_boolean textpreprocess parse_query q self
      = (self, Raise SyntaxError))
  /\ (forall e,
         parse_query (String.concat " " (textpreprocess q)) = Some e ->
         exists r, processquery_boolean textpreprocess parse_query q self
                   = (self, Ok r)).
Proof.
  assert (Htd : forall t s, exists r, term_documents t s = (s, Ok r)).
  { intros t s. unfold term_documents, get_only_documents_for_term, bind, get.
    destruct (find_one t _); eexists; reflexivity. }
  assert (Hrd : forall x s, exists r, rest_documents x s = (s, Ok r)).
  { intros x s. eexists. reflexivity. }
  split; [exact Htd |]. split; [| split; [exact Hrd | split]].
  - intros t s Hf.
    unfold term_documents, get_only_documents_for_term, bind, get.
    now rewrite Hf.
  - intro Hp. unfold processquery_boolean, eval_query. now rewrite Hp.
  - intros e Hp. unfold processquery_boolean, eval_query. rewrite Hp.
    now apply eval_bexpr_returns.
Qed.

End BooleanTotal.

(** ** The script of [main.py], end to end *)

Lemma dict_contains_keys d (docs : list (Document * R)) :
  dict_contains Document_eqb d docs = true -> In d (dict_keys docs).
Proof.
  unfold dict_contains, dict_keys.
  induction docs as [| [k v] docs IH]; simpl; [discriminate |].
  destruct (Document_eqb k d) eqn:E.
  - intros _. left. now apply Document_eqb_eq.
  - intro H. right. now apply IH.
Qed.

Lemma index_add_keys d items idx t :
  In t (dict_keys (index_add d items idx)) ->
  In t (dict_keys idx) \/ In t (map fst items).
Proof.
  unfold index_add. revert idx.
  induction items as [| [t0 c0] items IH]; intros idx H; simpl in *.
  - now left.
  - destruct (IH _ H) as [H' | H']; [| right; now right].
    unfold index_set in H'. apply dict_set_keys in H'.
    destruct H' as [-> | H']; [right; now left | now left].
Qed.

Section MainScript.

Variable tokenize : Document -> list (Term * Z).
Variable textpreprocess : string -> list Term.

Lemma read_document_returns d self :
  counts_ok (tokenize d) ->
  read_document tokenize d self
  = (exec (read_document tokenize d) self, Ok tt).
Proof.
  intro Hc. unfold exec.
  destruct (dict_contains Document_eqb d (documents self)) eqn:Hk.
  - now rewrite read_document_known_eq.
  - now rewrite read_document_fresh.
Qed.

Lemma read_loop docs self :
  (forall d, In d docs -> counts_ok (tokenize d)) ->
  for_each (fun (_ : unit) d => read_document tokenize d) docs tt self
  = (read_all tokenize docs self, Ok tt).
Proof.
  unfold read_all. revert self.
  induction docs as [| d docs IH]; intros self Hc; cbn [for_each fold_left].
  - reflexivity.
  - unfold bind. rewrite read_document_returns by (apply Hc; now left).
    apply IH. intros; apply Hc; now right.
Qed.

Lemma read_document_mongo_db d self :
  mongo_db (exec (read_document tokenize d) self) = mongo_db self.
Proof.
  unfold exec.
  destruct (dict_contains Document_eqb d (documents self)) eqn:Hk.
  - now rewrite read_document_known_eq.
  - rewrite read_document_unknown_eq by exact Hk.
    now destruct (add_document tokenize d (index self)) as [idx [l | e]].
Qed.

Lemma read_all_mongo_db docs self :
  mongo_db (read_all tokenize docs self) = mongo_db self.
Proof.
  unfold read_all. revert self.
  induction docs as [| d docs IH]; intro self; simpl; [reflexivity |].
  now rewrite IH, read_document_mongo_db.
Qed.

Lemma read_all_built docs self :
  built_stable tokenize self ->
  (forall d, In d docs -> counts_ok (tokenize d)) ->
  built_stable tokenize (read_all tokenize docs self).
Proof.
  unfold read_all. revert self.
  induction docs as [| d docs IH]; intros self Hb Hc; simpl; [exact Hb |].
  apply IH; [| intros; apply Hc; now right].
  apply stable_read; [exact Hb | apply Hc; now left].
Qed.

Lemma read_document_index_keys d self t :
  ingested tokenize self -> counts_ok (tokenize d) ->
  (In t (dict_keys (index (exec (read_document tokenize d) self))) <->
   In t (dict_keys (index self)) \/ In t (map fst (tokenize d))).
Proof.
  intros [_ Hterms _] Hc. unfold exec.
  destruct (dict_contains Document_eqb d (documents self)) eqn:Hk.
  - rewrite read_document_known_eq by exact Hk. simpl. split; [now left |].
    intros [H | H]; [exact H |].
    apply (Hterms d); [now apply dict_contains_keys | exact H].
  - rewrite read_document_fresh by assumption. simpl. split.
    + apply index_add_keys.
    + intros [H | H];
        [now apply index_add_keys_mono | now apply index_add_keys_new].
Qed.

Lemma read_all_index_keys docs self t :
  built_stable tokenize self ->
  (forall d, In d docs -> counts_ok (tokenize d)) ->
  (In t (dict_keys (index (read_all tokenize docs self))) <->
   In t (dict_keys (index self))
   \/ exists d, In d docs /\ In t (map fst (tokenize d))).
Proof.
  unfold read_all. revert self.
  induction docs as [| d docs IH]; intros self Hb Hc; simpl.
  - split; [now left | intros [H | (d & [] & _)]; exact H].
  - assert (Hcd : counts_ok (tokenize d)) by (apply Hc; now left).
    rewrite IH by (try apply stable_read; auto; intros; apply Hc; now right).
    rewrite (read_document_index_keys d self t (built_ingested _ _ Hb) Hcd).
    split.
    + intros [[H | H] | (d' & Hin & H)].
      * now left.
      * right. exists d. split; [now left | exact H].
      * right. exists d'. split; [now right | exact H].
    + intros [H | (d' & [<- | Hin] & H)].
      * left. now left.
      * left. now right.
      * right. now exists d'.
Qed.

(** After the flush of such a collection over an empty store, the known
    terms are the keys of the posting table. *)
Lemma flush_known_terms self t :
  ingested tokenize self -> mongo_db self = empty_db ->
  (known_term (exec flush_to_mongo self) t <-> In t (dict_keys (index self))).
Proof.
  intros [Ht _ _] Hdb. unfold known_term, exec.
  rewrite flush_to_mongo_eq. simpl.
  destruct (truthy (index self)) eqn:Ei; simpl.
  - destruct (truthy (documents self)) eqn:Ed; simpl.
    + unfold flushed_db, insert_norms. simpl.
      rewrite find_one_push_terms, dict_get_existsb, Hdb. simpl.
      destruct (dict_get String.eqb t (index self)) eqn:Hg.
      * split; [intros _ | discriminate].
        destruct (in_dec string_dec t (dict_keys (index self))) as [H | H];
          [exact H |].
        apply dict_get_none_keys in H. congruence.
      * apply dict_get_none_keys in Hg. split; [intro H; now elim H | tauto].
    + apply truthy_false in Ed. apply Ht in Ed.
      rewrite Ed in Ei. discriminate.
  - apply truthy_false in Ei. rewrite Ei, Hdb. simpl.
    split; [intro H; now elim H | contradiction].
Qed.

(** X22: the script of [main.py] over an empty store, on documents whose
    counts are at least 1, ends with both in-memory tables empty; it
    returns the scores of the query exactly when each token of the query
    occurs in one of the documents read, and raises otherwise. *)
Theorem main_script_outcome docs q :
  (forall d, In d docs -> counts_ok (tokenize d)) ->
  index (exec (main_script tokenize textpreprocess docs q)
           (Collection_init empty_db)) = []
  /\ documents (exec (main_script tokenize textpreprocess docs q)
                  (Collection_init empty_db)) = []
  /\ ((forall t, In t (textpreprocess q) ->
                 exists d, In d docs /\ In t (map fst (tokenize d))) <->
      exists r, snd (main_script tokenize textpreprocess docs q
                       (Collection_init empty_db)) = Ok r).
Proof.
  intro Hc.
  set (s1 := read_all tokenize docs (Collection_init empty_db)).
  set (s2 := exec flush_to_mongo s1).
  assert (Hb1 : built_stable tokenize s1)
    by (apply read_all_built; [apply stable_init | exact Hc]).
  assert (Hb2 : built_stable tokenize s2) by (now apply stable_flush).
  assert (Hrun : main_script tokenize textpreprocess docs q
                   (Collection_init empty_db)
                 = processquery_vector textpreprocess q 0 (-1) s2).
  { unfold main_script, bind at 1. rewrite read_loop by exact Hc.
    unfold bind at 1. fold s1.
    pose proof (flush_to_mongo_eq s1) as Hf.
    assert (Hf' : flush_to_mongo s1 = (s2, Ok tt))
      by (unfold s2, exec; now rewrite Hf).
    now rewrite Hf'. }
  assert (Hknown : forall t,
             known_term s2 t <->
             exists d, In d docs /\ In t (map fst (tokenize d))).
  { intro t. unfold s2.
    rewrite (flush_known_terms s1 t (built_ingested _ _ Hb1)
               (read_all_mongo_db docs _)).
    unfold s1. rewrite (read_all_index_keys docs _ t (stable_init _) Hc).
    simpl. tauto. }
  unfold exec. rewrite Hrun.
  rewrite (readonly_processquery_vector textpreprocess q 0 (-1) s2).
  split; [unfold s2, exec; now rewrite flush_to_mongo_eq |].
  split; [unfold s2, exec; now rewrite flush_to_mongo_eq |].
  split.
  - intro Hall.
    assert (Hk : forall t, In t (textpreprocess q) -> known_term s2 t)
      by (intros t Hin; apply Hknown, Hall, Hin).
    pose proof (score_loop_ok_built tokenize s2 (textpreprocess q) Hb2 Hk)
      as Hloop.
    assert (HS : snd (for_each score_term (textpreprocess q) [] s2)
                 = Ok (score_all s2 (textpreprocess q) []))
      by (now rewrite Hloop).
    eexists. unfold processquery_vector, bind.
    rewrite (vector_scores_built tokenize s2 _ _ Hb2 HS). reflexivity.
  - intros [r Hr] t Hin. apply Hknown. unfold known_term. intro Hunk.
    destruct (processquery_vector_raises_on_unknown textpreprocess q 0 (-1)
                s2 t Hin Hunk) as [e He].
    rewrite He in Hr. discriminate.
Qed.

End MainScript.

Lemma main_script_outcome_witness :
  (forall d, In d [docA; docB] -> counts_ok (tokenize_ex d))
  /\ index (exec (main_script tokenize_ex textpreprocess_ex [docA; docB] "dog")
              (Collection_init empty_db)) = []
  /\ documents
       (exec (main_script tokenize_ex textpreprocess_ex [docA; docB] "dog")
          (Collection_init empty_db)) = []
  /\ ((forall t, In t (textpreprocess_ex "dog") ->
                 exists d, In d [docA; docB]
                           /\ In t (map fst (tokenize_ex d))) <->
      exists r, snd (main_script tokenize_ex textpreprocess_ex [docA; docB]
                       "dog" (Collection_init empty_db)) = Ok r).
Proof.
  assert (Hc : forall d, In d [docA; docB] -> counts_ok (tokenize_ex d)).
  { intros d [<- | [<- | []]]; unfold counts_ok; counts_ok. }
  split; [exact Hc |].
  exact (main_script_outcome tokenize_ex textpreprocess_ex [docA; docB] "dog"
           Hc).
Defined.

Lemma processquery_boolean_returns_witness :
  (fun _ : string => @None bexpr)
    (String.concat " " (textpreprocess_ex "cat")) = None
  /\ processquery_boolean textpreprocess_ex (fun _ => None) "cat"
       coll_AB_flushed
     = (coll_AB_flushed, Raise SyntaxError)
  /\ parse_query_ex (String.concat " " (textpreprocess_ex "NOT cat"))
     = Some (BNot (BTerm "cat"))
  /\ exists r,
       processquery_boolean textpreprocess_ex parse_query_ex "NOT cat"
         coll_AB_flushed
       = (coll_AB_flushed, Ok r).
Proof.
  split; [reflexivity |]. split.
  - destruct (processquery_boolean_returns textpreprocess_ex (fun _ => None)
                "cat" coll_AB_flushed) as (_ & _ & _ & Hnone & _).
    exact (Hnone eq_refl).
  - split; [reflexivity |].
    destruct (processquery_boolean_returns textpreprocess_ex parse_query_ex
                "NOT cat" coll_AB_flushed) as (_ & _ & _ & _ & Hsome).
    exact (Hsome (BNot (BTerm "cat")) eq_refl).
Defined.

(** ** A location read again after its content changed, evaluated *)






